(** * Wan2GP audio backend: job manager and segment pipeline

    A shallow embedding of [audio_backend/models/job_manager.py],
    [audio_backend/models/audio_config.py] (the parts the job manager and
    the pipeline read), [audio_backend/pipeline/processor.py] and the
    background task [process_job] of [audio_backend/main.py], followed by
    the properties of the job lifecycle that hold on them.

    Conventions of the embedding.
    - Python [float] values (progress, segment times) are exact rationals
      [Q].  The only arithmetic the code does on them is
      [idx / len * 100] and [end - start]; rounding to nearest is
      monotone, so the order facts below carry over to binary64.
    - [str] is [string] (bytes); [str.lower] lowers the ASCII letters.
    - [Optional[T]] is [option T]; truthiness of an optional path is
      [truthy].
    - A Python [dict] whose iteration order matters is an association
      list without duplicate keys ([PyDict.set] keeps the position of an
      existing key, as CPython does); the metadata files written below
      [storage_dir] are a finite map from file name to contents.
    - A raised exception is the [Raise] case of [Result].
    - [datetime.now()], [uuid.uuid4()], the file system, the model
      wrappers and ffmpeg are outside the program: their answers are
      parameters ([now], [job_id]) or fields of an oracle ([Env]). *)

From Stdlib Require Import QArith DecimalString Permutation Sorted.
From stdpp Require Import base list strings gmap.

(** ** Python values *)

Record Exception := mkException { exc_type : string; exc_msg : string }.

(** [str(e)] *)
Definition str_exc (e : Exception) : string := exc_msg e.

Definition ValueError (msg : string) : Exception := mkException "ValueError" msg.

Inductive Result (A : Type) : Type :=
| Ok (a : A)
| Raise (e : Exception).
Arguments Ok {A} a.
Arguments Raise {A} e.

Definition bind {A B : Type} (r : Result A) (k : A -> Result B) : Result B :=
  match r with
  | Ok a => k a
  | Raise e => Raise e
  end.

Notation "'do' x <- r ; k" := (bind r (fun x => k))
  (at level 10, x pattern, r at level 99, k at level 200).

(** Truthiness of [Optional[str]]: [None] and the empty string are falsy. *)
Definition truthy (p : option string) : bool :=
  match p with
  | Some s => negb (String.eqb s "")
  | None => false
  end.

(** [str(n)] for a non-negative [int]. *)
Definition str_of_nat (n : nat) : string :=
  NilEmpty.string_of_uint (Nat.to_uint n).

(** [enumerate(l)] *)
Definition enumerate {A : Type} (l : list A) : list (nat * A) :=
  imap (fun i a => (i, a)) l.

(** [l[:limit]] for an [int] limit: a negative limit counts from the end. *)
Definition slice_to {A : Type} (limit : Z) (l : list A) : list A :=
  if (0 <=? limit)%Z then take (Z.to_nat limit) l
  else take (length l - Z.to_nat (- limit)) l.

Module PyDict.
Section dict.
Context {V : Type}.

Definition t := list (string * V).

Fixpoint get (k : string) (d : t) : option V :=
  match d with
  | [] => None
  | (k', v) :: d' => if String.eqb k k' then Some v else get k d'
  end.

(** [d[k] = v]: an existing key keeps its position, a new key goes last. *)
Fixpoint set (k : string) (v : V) (d : t) : t :=
  match d with
  | [] => [(k, v)]
  | (k', v') :: d' =>
      if String.eqb k k' then (k, v) :: d' else (k', v') :: set k v d'
  end.

(** [del d[k]] *)
Fixpoint del (k : string) (d : t) : t :=
  match d with
  | [] => []
  | (k', v') :: d' => if String.eqb k k' then d' else (k', v') :: del k d'
  end.

(** [list(d.values())] *)
Definition values (d : t) : list V := map snd d.

End dict.
Arguments t : clear implicits.
End PyDict.

(** ** [job_manager.py]: statuses and segments *)

Inductive JobStatus :=
| QUEUED | RUNNING | PAUSED | COMPLETED | FAILED | CANCELLED.

Definition JobStatus_eqb (a b : JobStatus) : bool :=
  match a, b with
  | QUEUED, QUEUED | RUNNING, RUNNING | PAUSED, PAUSED
  | COMPLETED, COMPLETED | FAILED, FAILED | CANCELLED, CANCELLED => true
  | _, _ => false
  end.

(** [status.value] *)
Definition JobStatus_value (s : JobStatus) : string :=
  match s with
  | QUEUED => "queued"
  | RUNNING => "running"
  | PAUSED => "paused"
  | COMPLETED => "completed"
  | FAILED => "failed"
  | CANCELLED => "cancelled"
  end.

Definition all_statuses : list JobStatus :=
  [QUEUED; RUNNING; PAUSED; COMPLETED; FAILED; CANCELLED].

(** [JobStatus(v)]: the member whose value is [v], else [ValueError]. *)
Definition JobStatus_of_value (v : string) : Result JobStatus :=
  match List.find (fun s => String.eqb (JobStatus_value s) v) all_statuses with
  | Some s => Ok s
  | None => Raise (ValueError ("'" +:+ v +:+ "' is not a valid JobStatus"))
  end.

Definition lower_ascii (c : Ascii.ascii) : Ascii.ascii :=
  let n := Ascii.nat_of_ascii c in
  if (65 <=? n)%nat && (n <=? 90)%nat then Ascii.ascii_of_nat (n + 32) else c.

(** [s.lower()] *)
Fixpoint lower (s : string) : string :=
  match s with
  | EmptyString => EmptyString
  | String c s' => String (lower_ascii c) (lower s')
  end.

(** A segment definition as the caller sends it (a [Dict]): each key may
    be absent. *)
Record SegmentData := mkSegmentData {
  sd_start_time : option Q;
  sd_end_time : option Q;
  sd_duration : option Q;
  sd_original_path : option string
}.

Module AudioSegment.
Record t := mk {
  index : nat;
  start_time : Q;
  end_time : Q;
  duration : Q;
  original_path : option string;
  status : JobStatus;
  preview_path : option string;
  result_path : option string
}.

(** [AudioSegment.__init__] *)
Definition init (index : nat) (start_time end_time : Q)
    (original_path : option string) : t :=
  mk index start_time end_time (end_time - start_time)%Q original_path
     QUEUED None None.

Definition set_status (v : JobStatus) (s : t) : t :=
  mk (index s) (start_time s) (end_time s) (duration s) (original_path s)
     v (preview_path s) (result_path s).

Definition set_preview_path (v : option string) (s : t) : t :=
  mk (index s) (start_time s) (end_time s) (duration s) (original_path s)
     (status s) v (result_path s).

Definition set_result_path (v : option string) (s : t) : t :=
  mk (index s) (start_time s) (end_time s) (duration s) (original_path s)
     (status s) (preview_path s) v.

(** [to_dict]: the same fields with the status as its string value. *)
Record dict := mk_dict {
  d_index : nat;
  d_start_time : Q;
  d_end_time : Q;
  d_duration : Q;
  d_original_path : option string;
  d_status : string;
  d_preview_path : option string;
  d_result_path : option string
}.

Definition to_dict (s : t) : dict :=
  mk_dict (index s) (start_time s) (end_time s) (duration s)
          (original_path s) (JobStatus_value (status s))
          (preview_path s) (result_path s).
End AudioSegment.

(** ** [audio_config.py] *)

Inductive AudioFormat := WAV | FLAC | MP3.

Definition AudioFormat_value (f : AudioFormat) : string :=
  match f with WAV => "wav" | FLAC => "flac" | MP3 => "mp3" end.

(** The fields of [AudioProcessingConfig] that the job manager and the
    pipeline read: [swiftf0_enabled] is [config.swiftf0.enabled], and so
    on; [clear_cache_between_segments] is under [config.processing],
    [output_format] under [config.quality].  The remaining fields are
    parameters handed unread to the model wrappers. *)
Record AudioProcessingConfig := mkConfig {
  clear_cache_between_segments : bool;
  output_format : AudioFormat;
  swiftf0_enabled : bool;
  svc_enabled : bool;
  instrumental_enabled : bool;
  mixing_enabled : bool;
  pipeline_stages : list string
}.

Definition valid_stages : list string :=
  ["swiftf0"; "svc"; "instrumental"; "mixing"].

Definition str_in (s : string) (l : list string) : bool :=
  existsb (String.eqb s) l.

(** The pydantic validator of [pipeline_stages]. *)
Fixpoint validate_pipeline_stages_loop (v : list string) : Result unit :=
  match v with
  | [] => Ok tt
  | stage :: v' =>
      if negb (str_in stage valid_stages)
      then Raise (ValueError ("Invalid pipeline stage: " +:+ stage))
      else validate_pipeline_stages_loop v'
  end.

Definition validate_pipeline_stages (v : list string) : Result (list string) :=
  do _ <- validate_pipeline_stages_loop v; Ok v.


(** ** [processor.py]: the result dictionaries

    They are declared here because [complete_job] stores the pipeline's
    result dictionary in the job. *)

(** An entry of [result["stages"]]. *)
Inductive StageRecord :=
| StageCompleted (output : option string)
| StageSkipped (reason : string)
| StageFailed (error : string).

Module SegmentResult.
Record t := mk {
  segment_idx : nat;
  start_time : option Q;
  end_time : option Q;
  output_path : option string;
  preview_path : option string;
  stages : PyDict.t StageRecord
}.
End SegmentResult.

Module PipelineResults.
Record t := mk {
  job_id : string;
  output_path : option string;
  segments : list SegmentResult.t
}.
End PipelineResults.

(** ** [job_manager.py]: [ProcessingJob] *)

Module ProcessingJob.
Record t := mk {
  job_id : string;
  config : AudioProcessingConfig;
  status : JobStatus;
  progress : Q;
  current_stage : string;
  segments_completed : nat;
  segments_total : nat;
  message : string;
  created_at : Z;
  updated_at : Z;
  results : option PipelineResults.t;  (* [None] is the empty dict *)
  preview_url : option string;
  segments : list AudioSegment.t
}.

Definition segment_of_data (idx : nat) (seg_data : SegmentData)
  : AudioSegment.t :=
  let start := default 0%Q (sd_start_time seg_data) in
  AudioSegment.init idx start
    (default (start + default 10 (sd_duration seg_data))%Q
             (sd_end_time seg_data))
    (sd_original_path seg_data).

(** [ProcessingJob.__init__]; [t_created] and [t_updated] are its two
    clock readings. *)
Definition init (job_id : string) (config : AudioProcessingConfig)
    (segments : list SegmentData) (t_created t_updated : Z) : t :=
  mk job_id config QUEUED 0%Q "initialization" 0 (length segments)
     "Job created" t_created t_updated None None
     (map (fun '(idx, seg_data) => segment_of_data idx seg_data)
          (enumerate segments)).

Definition set_status (v : JobStatus) (j : t) : t :=
  mk (job_id j) (config j) v (progress j) (current_stage j)
     (segments_completed j) (segments_total j) (message j) (created_at j)
     (updated_at j) (results j) (preview_url j) (segments j).

Definition set_progress (v : Q) (j : t) : t :=
  mk (job_id j) (config j) (status j) v (current_stage j)
     (segments_completed j) (segments_total j) (message j) (created_at j)
     (updated_at j) (results j) (preview_url j) (segments j).

Definition set_current_stage (v : string) (j : t) : t :=
  mk (job_id j) (config j) (status j) (progress j) v
     (segments_completed j) (segments_total j) (message j) (created_at j)
     (updated_at j) (results j) (preview_url j) (segments j).

Definition set_segments_completed (v : nat) (j : t) : t :=
  mk (job_id j) (config j) (status j) (progress j) (current_stage j)
     v (segments_total j) (message j) (created_at j)
     (updated_at j) (results j) (preview_url j) (segments j).

Definition set_message (v : string) (j : t) : t :=
  mk (job_id j) (config j) (status j) (progress j) (current_stage j)
     (segments_completed j) (segments_total j) v (created_at j)
     (updated_at j) (results j) (preview_url j) (segments j).

Definition set_updated_at (v : Z) (j : t) : t :=
  mk (job_id j) (config j) (status j) (progress j) (current_stage j)
     (segments_completed j) (segments_total j) (message j) (created_at j)
     v (results j) (preview_url j) (segments j).

Definition set_results (v : option PipelineResults.t) (j : t) : t :=
  mk (job_id j) (config j) (status j) (progress j) (current_stage j)
     (segments_completed j) (segments_total j) (message j) (created_at j)
     (updated_at j) v (preview_url j) (segments j).

Definition set_segments (v : list AudioSegment.t) (j : t) : t :=
  mk (job_id j) (config j) (status j) (progress j) (current_stage j)
     (segments_completed j) (segments_total j) (message j) (created_at j)
     (updated_at j) (results j) (preview_url j) v.

(** [update_progress] *)
Definition update_progress (progress : Q) (current_stage message : string)
    (now : Z) (j : t) : t :=
  set_updated_at now
    (set_message message
       (set_current_stage current_stage (set_progress progress j))).

(** [seg.status in [JobStatus.COMPLETED, JobStatus.FAILED]] *)
Definition segment_done (seg : AudioSegment.t) : bool :=
  existsb (JobStatus_eqb (AudioSegment.status seg)) [COMPLETED; FAILED].

(** [sum(1 for seg in segments if ...)] *)
Definition count_done (segs : list AudioSegment.t) : nat :=
  length (List.filter segment_done segs).

(** The writes of [update_segment_status] to [self.segments[segment_index]]. *)
Definition update_segment (status : JobStatus)
    (preview_path result_path : option string) (seg : AudioSegment.t)
  : AudioSegment.t :=
  let seg := AudioSegment.set_status status seg in
  let seg := if truthy preview_path
             then AudioSegment.set_preview_path preview_path seg else seg in
  if truthy result_path
  then AudioSegment.set_result_path result_path seg else seg.

(** [update_segment_status]; [segment_index] is any [int]. *)
Definition update_segment_status (segment_index : Z) (status : JobStatus)
    (preview_path result_path : option string) (now : Z) (j : t) : t :=
  if (0 <=? segment_index)%Z
     && (segment_index <? Z.of_nat (length (segments j)))%Z
  then
    let i := Z.to_nat segment_index in
    let segs := alter (update_segment status preview_path result_path)
                      i (segments j) in
    set_updated_at now
      (set_segments_completed (count_done segs) (set_segments segs j))
  else j.

(** [to_dict]: [config.dict()] is the configuration itself and the
    timestamps stand for their ISO strings. *)
Record dict := mk_dict {
  d_job_id : string;
  d_status : string;
  d_progress : Q;
  d_current_stage : string;
  d_segments_completed : nat;
  d_segments_total : nat;
  d_message : string;
  d_config : AudioProcessingConfig;
  d_segments : list AudioSegment.dict;
  d_results : option PipelineResults.t;
  d_created_at : Z;
  d_updated_at : Z;
  d_preview_url : option string
}.

Definition to_dict (j : t) : dict :=
  mk_dict (job_id j) (JobStatus_value (status j)) (progress j)
          (current_stage j) (segments_completed j) (segments_total j)
          (message j) (config j) (map AudioSegment.to_dict (segments j))
          (results j) (created_at j) (updated_at j) (preview_url j).
End ProcessingJob.

(** ** [job_manager.py]: [JobManager] *)

Module JobManager.
Record t := mk {
  jobs : PyDict.t ProcessingJob.t;
  (** the files below [storage_dir], by name *)
  storage : gmap string ProcessingJob.dict
}.

(** [JobManager.__init__] on an empty storage directory *)
Definition init : t := mk [] ∅.

Definition metadata_file (job_id : string) : string :=
  job_id +:+ "_metadata.json".

(** [_save_job_metadata] *)
Definition _save_job_metadata (job : ProcessingJob.t) (m : t) : t :=
  mk (jobs m)
     (<[metadata_file (ProcessingJob.job_id job) := ProcessingJob.to_dict job]>
        (storage m)).

(** [load_job_metadata] *)
Definition load_job_metadata (job_id : string) (m : t)
  : option ProcessingJob.dict :=
  storage m !! metadata_file job_id.

(** [get_job] *)
Definition get_job (job_id : string) (m : t) : option ProcessingJob.t :=
  PyDict.get job_id (jobs m).

(** The job object found under [job_id] is mutated in place: the new
    field values are read back under the same key. *)
Definition write_job (job_id : string) (job : ProcessingJob.t) (m : t) : t :=
  mk (PyDict.set job_id job (jobs m)) (storage m).

(** [create_job]; [job_id] is the UUID drawn. *)
Definition create_job (job_id : string) (t_created t_updated : Z)
    (config : AudioProcessingConfig) (segments : list SegmentData) (m : t)
  : string * t :=
  let job := ProcessingJob.init job_id config segments t_created t_updated in
  (job_id, _save_job_metadata job (write_job job_id job m)).

(** [update_job_status] *)
Definition update_job_status (job_id : string) (status : JobStatus)
    (message : string) (progress : option Q) (m : t) : t :=
  match get_job job_id m with
  | Some job =>
      let job := ProcessingJob.set_status status job in
      let job := ProcessingJob.set_message message job in
      let job := match progress with
                 | Some p => ProcessingJob.set_progress p job
                 | None => job
                 end in
      _save_job_metadata job (write_job job_id job m)
  | None => m
  end.

(** [update_job_progress] *)
Definition update_job_progress (job_id : string) (progress : Q)
    (current_stage message : string) (now : Z) (m : t) : t :=
  match get_job job_id m with
  | Some job =>
      let job :=
        ProcessingJob.update_progress progress current_stage message now job in
      _save_job_metadata job (write_job job_id job m)
  | None => m
  end.

(** [update_segment_status] *)
Definition update_segment_status (job_id : string) (segment_index : Z)
    (status : JobStatus) (preview_path result_path : option string)
    (now : Z) (m : t) : t :=
  match get_job job_id m with
  | Some job =>
      let job :=
        ProcessingJob.update_segment_status segment_index status
          preview_path result_path now job in
      _save_job_metadata job (write_job job_id job m)
  | None => m
  end.

(** [complete_job] *)
Definition complete_job (job_id : string) (results : PipelineResults.t)
    (now : Z) (m : t) : t :=
  match get_job job_id m with
  | Some job =>
      let job := ProcessingJob.set_status COMPLETED job in
      let job := ProcessingJob.set_progress 100 job in
      let job := ProcessingJob.set_current_stage "completed" job in
      let job := ProcessingJob.set_message "Job completed successfully" job in
      let job := ProcessingJob.set_results (Some results) job in
      let job := ProcessingJob.set_updated_at now job in
      _save_job_metadata job (write_job job_id job m)
  | None => m
  end.

(** [fail_job] *)
Definition fail_job (job_id : string) (error_message : string)
    (now : Z) (m : t) : t :=
  match get_job job_id m with
  | Some job =>
      let job := ProcessingJob.set_status FAILED job in
      let job := ProcessingJob.set_current_stage "failed" job in
      let job :=
        ProcessingJob.set_message ("Job failed: " +:+ error_message) job in
      let job := ProcessingJob.set_updated_at now job in
      _save_job_metadata job (write_job job_id job m)
  | None => m
  end.

(** [job.status in [JobStatus.QUEUED, JobStatus.RUNNING]] *)
Definition cancellable (s : JobStatus) : bool :=
  existsb (JobStatus_eqb s) [QUEUED; RUNNING].

(** [cancel_job] *)
Definition cancel_job (job_id : string) (now : Z) (m : t) : bool * t :=
  match get_job job_id m with
  | Some job =>
      if cancellable (ProcessingJob.status job) then
        let job := ProcessingJob.set_status CANCELLED job in
        let job := ProcessingJob.set_message "Job cancelled" job in
        let job := ProcessingJob.set_updated_at now job in
        (true, _save_job_metadata job (write_job job_id job m))
      else (false, m)
  | None => (false, m)
  end.

(** [jobs.sort(key=lambda j: j.created_at, reverse=True)]: the sort is
    stable, jobs created at the same instant keep their order. *)
Fixpoint insert_newest_first (j : ProcessingJob.t) (l : list ProcessingJob.t)
  : list ProcessingJob.t :=
  match l with
  | [] => [j]
  | j' :: l' =>
      if (ProcessingJob.created_at j <? ProcessingJob.created_at j')%Z
      then j' :: insert_newest_first j l'
      else j :: j' :: l'
  end.

Definition sort_newest_first (l : list ProcessingJob.t)
  : list ProcessingJob.t :=
  foldr insert_newest_first [] l.

(** The [if status_filter: try ... except ValueError: pass] block. *)
Definition apply_status_filter (status_filter : option string)
    (jobs : list ProcessingJob.t) : list ProcessingJob.t :=
  match status_filter with
  | Some f =>
      if truthy (Some f) then
        match JobStatus_of_value (lower f) with
        | Ok filter_status =>
            List.filter
              (fun j => JobStatus_eqb (ProcessingJob.status j) filter_status)
              jobs
        | Raise _ => jobs
        end
      else jobs
  | None => jobs
  end.

(** [list_jobs] *)
Definition list_jobs (limit : Z) (status_filter : option string) (m : t)
  : list ProcessingJob.dict :=
  let jobs := PyDict.values (jobs m) in
  let jobs := apply_status_filter status_filter jobs in
  let jobs := sort_newest_first jobs in
  let jobs := slice_to limit jobs in
  map ProcessingJob.to_dict jobs.

(** [delete_job]: the job's directory holds no modelled file. *)
Definition delete_job (job_id : string) (m : t) : bool * t :=
  match PyDict.get job_id (jobs m) with
  | Some _ =>
      (true, mk (PyDict.del job_id (jobs m))
                (delete (metadata_file job_id) (storage m)))
  | None => (false, m)
  end.
End JobManager.

(** ** The world outside the pipeline

    What the calls that leave the program answer.  [WrapperCalls] is one
    model wrapper on one stage of one segment; the [bool] of [process] is
    the truthiness of what it returns. *)

Record WrapperCalls := mkWrapperCalls {
  is_available : Result bool;
  is_loaded : Result bool;
  load : Result unit;
  process : Result bool
}.

(** The calls of [datetime.now()] made while a job runs. *)
Inductive ClockSite :=
| AtSegmentProgress (segment_idx : nat)
| AtSegmentRunning (segment_idx : nat)
| AtSegmentCompleted (segment_idx : nat)
| AtCombining
| AtFinalProgress
| AtCompleteJob
| AtFailJob.

Record Env := mkEnv {
  clock : ClockSite -> Z;
  (** [Path(original_path).exists()], by segment *)
  original_exists : nat -> bool;
  (** the wrapper of the stage at a position of [pipeline_stages], by
      segment and position *)
  wrapper_calls : nat -> nat -> WrapperCalls;
  (** [Path(current_audio).exists()] after the stages, by segment *)
  final_exists : nat -> bool;
  (** ffmpeg in [_convert_audio], by segment *)
  convert_audio : nat -> Result unit;
  (** writing the list file and ffmpeg in [_combine_segments] *)
  concat : Result unit
}.

(** ** [processor.py]: [AudioPipelineProcessor] *)

Module AudioPipelineProcessor.
Section processor.
Variable temp_dir : string.
Variable env : Env.

(** [str(self.temp_dir / name)] *)
Definition temp_file (name : string) : string := temp_dir +:+ "/" +:+ name.

Definition segment_file (job_id : string) (segment_idx : nat)
    (suffix : string) : string :=
  temp_file (job_id +:+ "_segment_" +:+ str_of_nat segment_idx +:+ "_"
             +:+ suffix +:+ ".wav").

(** The body shared by [_process_swiftf0], [_process_svc] and
    [_process_instrumental], which differ in the name of the output file
    and in the parameters they hand to the wrapper. *)
Definition _process_with (suffix : string) (input_path : option string)
    (wrapper : WrapperCalls) (job_id : string) (segment_idx : nat)
  : Result (option string) :=
  if negb (truthy input_path) then Ok input_path
  else
    do available <- is_available wrapper;
    if negb available then Ok input_path
    else
      let body :=
        do loaded <- is_loaded wrapper;
        do _ <- (if negb loaded then load wrapper else Ok tt);
        do result <- process wrapper;
        if result then Ok (Some (segment_file job_id segment_idx suffix))
        else Ok input_path in
      match body with
      | Ok output => Ok output
      | Raise _ => Ok input_path   (* [except Exception: return input_path] *)
      end.

Definition _process_swiftf0 := _process_with "swiftf0".
Definition _process_svc := _process_with "svc".
Definition _process_instrumental := _process_with "instrumental".

(** One turn of the loop over [config.pipeline_stages] in
    [_process_segment]: the [try] block and its handler, on the pair
    ([current_audio], [result["stages"]]). *)
Definition run_stage (config : AudioProcessingConfig) (job_id : string)
    (segment_idx : nat) (acc : option string * PyDict.t StageRecord)
    (item : nat * string) : option string * PyDict.t StageRecord :=
  let '(current_audio, stages) := acc in
  let '(stage_idx, stage) := item in
  let wrapper := wrapper_calls env segment_idx stage_idx in
  let attempt :=
    if String.eqb stage "swiftf0" && swiftf0_enabled config then
      do output <- _process_swiftf0 current_audio wrapper job_id segment_idx;
      Ok (output, PyDict.set "swiftf0" (StageCompleted output) stages)
    else if String.eqb stage "svc" && svc_enabled config then
      do output <- _process_svc current_audio wrapper job_id segment_idx;
      Ok (output, PyDict.set "svc" (StageCompleted output) stages)
    else if String.eqb stage "instrumental" && instrumental_enabled config then
      do output <- _process_instrumental current_audio wrapper job_id
                     segment_idx;
      Ok (output, PyDict.set "instrumental" (StageCompleted output) stages)
    else if String.eqb stage "mixing" && mixing_enabled config then
      Ok (current_audio,
          PyDict.set "mixing" (StageSkipped "Requires multiple tracks") stages)
    else Ok (current_audio, stages) in
  match attempt with
  | Ok acc' => acc'
  | Raise e => (current_audio, PyDict.set stage (StageFailed (str_exc e)) stages)
  end.

Definition run_stages (config : AudioProcessingConfig) (job_id : string)
    (segment_idx : nat) (original_path : option string)
  : option string * PyDict.t StageRecord :=
  foldl (run_stage config job_id segment_idx) (original_path, [])
        (enumerate (pipeline_stages config)).

(** [_process_segment] *)
Definition _process_segment (job_id : string) (segment_idx : nat)
    (segment_data : SegmentData) (config : AudioProcessingConfig)
  : Result SegmentResult.t :=
  let original_path := sd_original_path segment_data in
  let original_path :=
    if negb (truthy original_path) || negb (original_exists env segment_idx)
    then None else original_path in
  let '(current_audio, stages) :=
    run_stages config job_id segment_idx original_path in
  if truthy current_audio && final_exists env segment_idx then
    let segment_output := segment_file job_id segment_idx "final" in
    do _ <- convert_audio env segment_idx;
    Ok (SegmentResult.mk segment_idx (sd_start_time segment_data)
          (sd_end_time segment_data) (Some segment_output)
          (Some segment_output) stages)
  else
    Ok (SegmentResult.mk segment_idx (sd_start_time segment_data)
          (sd_end_time segment_data) None None stages).

(** [valid_segments = [s for s in segments if s.get("output_path")]] *)
Definition valid_segments (segments : list SegmentResult.t)
  : list SegmentResult.t :=
  List.filter (fun s => truthy (SegmentResult.output_path s)) segments.

(** [_combine_segments] *)
Definition _combine_segments (segments : list SegmentResult.t)
    (config : AudioProcessingConfig) (job_id : string) : Result string :=
  match valid_segments segments with
  | [] => Raise (ValueError "No valid segments to combine")
  | _ :: _ =>
      let output_path :=
        temp_file (job_id +:+ "_combined."
                   +:+ AudioFormat_value (output_format config)) in
      do _ <- concat env;
      Ok output_path
  end.

(** [(segment_idx / len(segments)) * 100] *)
Definition segment_progress (segment_idx total : nat) : Q :=
  (inject_Z (Z.of_nat segment_idx) / inject_Z (Z.of_nat total)) * 100.

(** The loop of [process] over [enumerate(segments)], from any point of
    it on: [items] is what is left of the enumeration, [acc] is
    [results["segments"]], [total] is [len(segments)].  The job manager
    keeps what was written to it when an exception ends the loop.
    [_clear_gpu_cache] touches nothing that is modelled and catches its
    own exceptions. *)
Fixpoint process_segments (job_id : string) (config : AudioProcessingConfig)
    (total : nat) (items : list (nat * SegmentData))
    (job_manager : JobManager.t) (acc : list SegmentResult.t)
  : JobManager.t * Result (list SegmentResult.t) :=
  match items with
  | [] => (job_manager, Ok acc)
  | (segment_idx, segment_data) :: items' =>
      let job_manager :=
        JobManager.update_job_progress job_id
          (segment_progress segment_idx total)
          ("processing_segment_" +:+ str_of_nat segment_idx)
          ("Processing segment " +:+ str_of_nat (segment_idx + 1) +:+ "/"
           +:+ str_of_nat total)
          (clock env (AtSegmentProgress segment_idx)) job_manager in
      let job_manager :=
        JobManager.update_segment_status job_id (Z.of_nat segment_idx)
          RUNNING None None
          (clock env (AtSegmentRunning segment_idx)) job_manager in
      match _process_segment job_id segment_idx segment_data config with
      | Raise e => (job_manager, Raise e)
      | Ok segment_result =>
          let acc := acc ++ [segment_result] in
          let job_manager :=
            JobManager.update_segment_status job_id (Z.of_nat segment_idx)
              COMPLETED (SegmentResult.preview_path segment_result)
              (SegmentResult.output_path segment_result)
              (clock env (AtSegmentCompleted segment_idx)) job_manager in
          process_segments job_id config total items' job_manager acc
      end
  end.

(** What [process] does once the loop is over. *)
Definition combine_and_finish (job_id : string)
    (config : AudioProcessingConfig) (job_manager : JobManager.t)
    (segment_results : list SegmentResult.t)
  : JobManager.t * Result PipelineResults.t :=
  let job_manager :=
    JobManager.update_job_progress job_id 90 "combining_segments"
      "Combining processed segments" (clock env AtCombining) job_manager in
  match _combine_segments segment_results config job_id with
  | Raise e => (job_manager, Raise e)
  | Ok final_output =>
      let job_manager :=
        JobManager.update_job_progress job_id 100 "completed"
          "Processing completed successfully" (clock env AtFinalProgress)
          job_manager in
      (job_manager,
       Ok (PipelineResults.mk job_id (Some final_output) segment_results))
  end.

(** [process] *)
Definition process (job_id : string) (config : AudioProcessingConfig)
    (segments : list SegmentData) (job_manager : JobManager.t)
  : JobManager.t * Result PipelineResults.t :=
  match process_segments job_id config (length segments)
          (enumerate segments) job_manager [] with
  | (job_manager, Raise e) => (job_manager, Raise e)
  | (job_manager, Ok segment_results) =>
      combine_and_finish job_id config job_manager segment_results
  end.

End processor.
End AudioPipelineProcessor.

(** ** [main.py] *)

(** What [process_job] does with the outcome of the pipeline. *)
Definition finish_job (env : Env) (job_id : string)
    (outcome : JobManager.t * Result PipelineResults.t) : JobManager.t :=
  match outcome with
  | (job_manager, Ok results) =>
      JobManager.complete_job job_id results (clock env AtCompleteJob)
        job_manager
  | (job_manager, Raise e) =>
      JobManager.fail_job job_id (str_exc e) (clock env AtFailJob) job_manager
  end.

(** [process_job], the background task of a job. *)
Definition process_job (temp_dir : string) (env : Env) (job_id : string)
    (config : AudioProcessingConfig) (segments : list SegmentData)
    (job_manager : JobManager.t) : JobManager.t :=
  let job_manager :=
    JobManager.update_job_status job_id RUNNING "Starting pipeline" None
      job_manager in
  finish_job env job_id
    (AudioPipelineProcessor.process temp_dir env job_id config segments
       job_manager).


(** ** [processor.py]: the list [_combine_segments] hands to ffmpeg *)

Definition newline : string := String (Ascii.ascii_of_nat 10) "".

(** The lines written to the concat list file, in the order written;
    [absolute] is [Path.absolute] in the working directory of the
    server. *)
Definition concat_list (absolute : string → string)
    (segments : list SegmentResult.t) : list string :=
  map (λ segment,
         "file '"
         +:+ absolute (default "" (SegmentResult.output_path segment))
         +:+ "'" +:+ newline)
      (AudioPipelineProcessor.valid_segments segments).

(** ** [main.py]: the endpoints that read a job *)

(** What a handler does: return a body, raise [HTTPException], or let
    another exception out (the server then answers 500). *)
Inductive HTTP (A : Type) : Type :=
| Respond (body : A)
| HTTPException (status_code : nat) (detail : string)
| Unhandled (e : Exception).
Arguments Respond {A} body.
Arguments HTTPException {A} status_code detail.
Arguments Unhandled {A} e.

Definition AttributeError (msg : string) : Exception :=
  mkException "AttributeError" msg.

Definition IndexError (msg : string) : Exception :=
  mkException "IndexError" msg.

Definition TypeError (msg : string) : Exception :=
  mkException "TypeError" msg.

(** The values the handlers read out of a segment. *)
Inductive PyValue :=
| PyNone
| PyFloat (x : Q)
| PyStr (s : string).

(** [segment.get(key)] and [segment.get(key, default)] on an
    [AudioSegment]: the class defines [__init__] and [to_dict] only, so
    the lookup of the attribute [get] raises. *)
Definition AudioSegment_get (segment : AudioSegment.t) (key : string)
    (default : option PyValue) : Result PyValue :=
  Raise (AttributeError "'AudioSegment' object has no attribute 'get'").

(** [a - b] on the values above. *)
Definition py_sub (a b : PyValue) : Result PyValue :=
  match a, b with
  | PyFloat x, PyFloat y => Ok (PyFloat (x - y))
  | _, _ => Raise (TypeError "unsupported operand type(s) for -")
  end.

(** [l[i]] for an [int] index. *)
Definition py_index {A : Type} (l : list A) (i : Z) : Result A :=
  let n := Z.of_nat (length l) in
  let k := if (i <? 0)%Z then (n + i)%Z else i in
  if (0 <=? k)%Z && (k <? n)%Z then
    match l !! Z.to_nat k with
    | Some x => Ok x
    | None => Raise (IndexError "list index out of range")
    end
  else Raise (IndexError "list index out of range").

Fixpoint result_map {A B : Type} (f : A → Result B) (l : list A)
  : Result (list B) :=
  match l with
  | [] => Ok []
  | x :: l' =>
      do y <- f x;
      do ys <- result_map f l';
      Ok (y :: ys)
  end.

Record ProgressResponse := mkProgressResponse {
  pr_job_id : string;
  pr_status : string;
  pr_progress : Q;
  pr_current_stage : string;
  pr_segments_completed : nat;
  pr_segments_total : nat;
  pr_message : string;
  pr_preview_url : option string
}.

(** [get_job_progress] *)
Definition get_job_progress (job_id : string) (job_manager : JobManager.t)
  : HTTP ProgressResponse :=
  match JobManager.get_job job_id job_manager with
  | None => HTTPException 404 "Job not found"
  | Some job =>
      Respond
        (mkProgressResponse job_id
           (JobStatus_value (ProcessingJob.status job))
           (ProcessingJob.progress job)
           (ProcessingJob.current_stage job)
           (ProcessingJob.segments_completed job)
           (ProcessingJob.segments_total job)
           (ProcessingJob.message job)
           (ProcessingJob.preview_url job))
  end.

(** The [FileResponse] of a handler: the path served and the download
    name. *)
Record FileResponse := mkFileResponse {
  fr_path : string;
  fr_filename : string
}.

(** [get_preview]; [path_exists] is [Path(p).exists()]. *)
Definition get_preview (path_exists : string → bool) (job_id : string)
    (segment_index : option Z) (job_manager : JobManager.t)
  : HTTP FileResponse :=
  match JobManager.get_job job_id job_manager with
  | None => HTTPException 404 "Job not found"
  | Some job =>
      let serve (preview_path : option string) : HTTP FileResponse :=
        match preview_path with
        | Some path =>
            if negb (truthy preview_path) || negb (path_exists path)
            then HTTPException 404 "Preview not available"
            else Respond
                   (mkFileResponse path ("preview_" +:+ job_id +:+ ".wav"))
        | None => HTTPException 404 "Preview not available"
        end in
      match segment_index with
      | Some i =>
          if (Z.of_nat (length (ProcessingJob.segments job)) <=? i)%Z
          then HTTPException 400 "Invalid segment index"
          else
            match py_index (ProcessingJob.segments job) i with
            | Raise e => Unhandled e
            | Ok segment =>
                match AudioSegment_get segment "preview_path" None with
                | Raise e => Unhandled e
                | Ok (PyStr path) => serve (Some path)
                | Ok _ => serve None
                end
            end
      | None => serve (ProcessingJob.preview_url job)
      end
  end.

(** [job.results.get("output_path")] *)
Definition results_output_path (job : ProcessingJob.t) : option string :=
  match ProcessingJob.results job with
  | Some results => PipelineResults.output_path results
  | None => None
  end.

(** [download_result] *)
Definition download_result (path_exists : string → bool) (job_id : string)
    (job_manager : JobManager.t) : HTTP FileResponse :=
  match JobManager.get_job job_id job_manager with
  | None => HTTPException 404 "Job not found"
  | Some job =>
      if negb (JobStatus_eqb (ProcessingJob.status job) COMPLETED)
      then HTTPException 400 "Job not completed"
      else
        match results_output_path job with
        | Some path =>
            if negb (truthy (Some path)) || negb (path_exists path)
            then HTTPException 404 "Output file not found"
            else Respond
                   (mkFileResponse path ("result_" +:+ job_id +:+ ".wav"))
        | None => HTTPException 404 "Output file not found"
        end
  end.

(** An entry of the list [get_job_segments] builds. *)
Record SegmentInfo := mkSegmentInfo {
  si_index : nat;
  si_start_time : PyValue;
  si_end_time : PyValue;
  si_duration : PyValue;
  si_status : PyValue;
  si_preview_path : PyValue;
  si_result_path : PyValue
}.

(** The dictionary display in the loop of [get_job_segments], its
    entries evaluated in order. *)
Definition segment_info (item : nat * AudioSegment.t) : Result SegmentInfo :=
  let '(idx, segment) := item in
  do start_time <- AudioSegment_get segment "start_time" None;
  do end_time <- AudioSegment_get segment "end_time" None;
  do end_time' <- AudioSegment_get segment "end_time" None;
  do start_time' <- AudioSegment_get segment "start_time" None;
  do duration <- py_sub end_time' start_time';
  do status <- AudioSegment_get segment "status" (Some (PyStr "pending"));
  do preview_path <- AudioSegment_get segment "preview_path" None;
  do result_path <- AudioSegment_get segment "result_path" None;
  Ok (mkSegmentInfo idx start_time end_time duration status preview_path
        result_path).

(** [get_job_segments] *)
Definition get_job_segments (job_id : string) (job_manager : JobManager.t)
  : HTTP (list SegmentInfo) :=
  match JobManager.get_job job_id job_manager with
  | None => HTTPException 404 "Job not found"
  | Some job =>
      match result_map segment_info (enumerate (ProcessingJob.segments job)) with
      | Ok segments => Respond segments
      | Raise e => Unhandled e
      end
  end.

(** [cancel_job], the DELETE handler. *)
Definition cancel_job_endpoint (job_id : string) (now : Z)
    (job_manager : JobManager.t) : HTTP string * JobManager.t :=
  let '(success, job_manager) :=
    JobManager.cancel_job job_id now job_manager in
  if negb success
  then (HTTPException 404 "Job not found or cannot be cancelled", job_manager)
  else (Respond "cancelled", job_manager).

(** * Cover Studio plugin: [CoverPipeline._create_segments]
    ([plugins/wan2gp-cover-studio/backend/services/pipeline.py]) *)

(** [range(start, stop, step)], as the list of its elements. *)
Definition py_range (start stop step : Z) : Result (list Z) :=
  if (step =? 0)%Z then Raise (ValueError "range() arg 3 must not be zero")
  else
    let n :=
      if (0 <? step)%Z
      then if (start <? stop)%Z then ((stop - start - 1) / step + 1)%Z
           else 0%Z
      else if (stop <? start)%Z then ((start - stop - 1) / (- step) + 1)%Z
           else 0%Z in
    Ok ((λ k, (start + Z.of_nat k * step)%Z) <$> seq 0 (Z.to_nat n)).

(** [a[start:stop]] along the first axis: a negative bound counts from
    the end, and both bounds are clipped to the sequence. *)
Definition py_slice {A : Type} (a : list A) (start stop : Z) : list A :=
  let n := Z.of_nat (length a) in
  let clip i := if (i <? 0)%Z then Z.max 0 (i + n) else Z.min i n in
  take (Z.to_nat (clip stop - clip start)) (drop (Z.to_nat (clip start)) a).

Module CoverPipeline.

(** A segment dictionary; [A] is the type of a sample. *)
Record Segment (A : Type) := mkSegment {
  audio : list A;
  start_sample : Z;
  end_sample : Z;
  start_frame : Z;
  end_frame : Z;
  duration : Q
}.
Arguments mkSegment {A} audio start_sample end_sample start_frame end_frame
  duration.
Arguments audio {A} s.
Arguments start_sample {A} s.
Arguments end_sample {A} s.
Arguments start_frame {A} s.
Arguments end_frame {A} s.
Arguments duration {A} s.

(** [_create_segments].  The division by [sr] is only reached inside
    the loop, hence with [segment_length * sr] not zero. *)
Definition _create_segments {A : Type} (audio : list A)
    (sr segment_length : Z) : Result (list (Segment A)) :=
  let segment_samples := (segment_length * sr)%Z in
  let total_samples := Z.of_nat (length audio) in
  do starts <- py_range 0 total_samples segment_samples;
  Ok ((λ start_sample,
         let end_sample :=
           Z.min (start_sample + segment_samples) total_samples in
         mkSegment (py_slice audio start_sample end_sample)
           start_sample end_sample start_sample end_sample
           (inject_Z (end_sample - start_sample) / inject_Z sr))
        <$> starts).

End CoverPipeline.

(** * Vocabulary of the properties *)

(** ** Observations *)

Definition job_status (id : string) (m : JobManager.t) : option JobStatus :=
  ProcessingJob.status <$> JobManager.get_job id m.

Definition job_progress (id : string) (m : JobManager.t) : option Q :=
  ProcessingJob.progress <$> JobManager.get_job id m.

Definition job_segments (id : string) (m : JobManager.t)
  : list AudioSegment.t :=
  match JobManager.get_job id m with
  | Some j => ProcessingJob.segments j
  | None => []
  end.

(** The statuses of a job's segments, in index order. *)
Definition segment_statuses (id : string) (m : JobManager.t)
  : list JobStatus :=
  map AudioSegment.status (job_segments id m).

Definition loop_results (out : JobManager.t * Result (list SegmentResult.t))
  : list SegmentResult.t :=
  match out.2 with
  | Ok rs => rs
  | Raise _ => []
  end.

Definition segment_stages (r : Result SegmentResult.t)
  : PyDict.t StageRecord :=
  match r with
  | Ok result => SegmentResult.stages result
  | Raise _ => []
  end.

(** ** Predicates on configurations, stages and managers *)


(** The stages that run a model wrapper. *)
Definition model_stages : list string := ["swiftf0"; "svc"; "instrumental"].

(** [config.<stage>.enabled] *)
Definition stage_enabled (config : AudioProcessingConfig) (stage : string)
  : bool :=
  if String.eqb stage "swiftf0" then swiftf0_enabled config
  else if String.eqb stage "svc" then svc_enabled config
  else if String.eqb stage "instrumental" then instrumental_enabled config
  else if String.eqb stage "mixing" then mixing_enabled config
  else false.

(** Whether [_process_segment] finds a final audio to convert: the test
    [current_audio and Path(current_audio).exists()] after the stages. *)
Definition final_audio_usable (temp_dir : string) (env : Env)
    (job_id : string) (config : AudioProcessingConfig) (idx : nat)
    (sd : SegmentData) : bool :=
  let original_path :=
    if negb (truthy (sd_original_path sd)) || negb (original_exists env idx)
    then None else sd_original_path sd in
  truthy (AudioPipelineProcessor.run_stages temp_dir env config job_id idx
            original_path).1
  && final_exists env idx.

#[local] Instance JobStatus_eq_dec : EqDecision JobStatus.
Proof. solve_decision. Defined.

(** The manager states that the operations of [JobManager] can produce. *)
Inductive reachable : JobManager.t → Prop :=
| reach_init : reachable JobManager.init
| reach_create_job m job_id t_created t_updated config segments :
    reachable m →
    reachable
      (JobManager.create_job job_id t_created t_updated config segments m).2
| reach_update_job_status m job_id status message progress :
    reachable m →
    reachable (JobManager.update_job_status job_id status message progress m)
| reach_update_job_progress m job_id progress stage message now :
    reachable m →
    reachable
      (JobManager.update_job_progress job_id progress stage message now m)
| reach_update_segment_status m job_id i status preview result now :
    reachable m →
    reachable
      (JobManager.update_segment_status job_id i status preview result now m)
| reach_complete_job m job_id results now :
    reachable m → reachable (JobManager.complete_job job_id results now m)
| reach_fail_job m job_id error now :
    reachable m → reachable (JobManager.fail_job job_id error now m)
| reach_cancel_job m job_id now :
    reachable m → reachable (JobManager.cancel_job job_id now m).2
| reach_delete_job m job_id :
    reachable m → reachable (JobManager.delete_job job_id m).2.

Definition counter_agrees (j : ProcessingJob.t) : Prop :=
  ProcessingJob.segments_completed j
  = ProcessingJob.count_done (ProcessingJob.segments j).

Definition all_counters_agree (m : JobManager.t) : Prop :=
  Forall (λ kv, counter_agrees kv.2) (JobManager.jobs m).

Definition newest_first (a b : ProcessingJob.t) : Prop :=
  (ProcessingJob.created_at b ≤ ProcessingJob.created_at a)%Z.

(** ** Further predicates on managers and jobs *)

Definition job_keys (m : JobManager.t) : list string := (JobManager.jobs m).*1.

(** Every job is filed under its own id, the snapshot on disk is the
    job's current state, and every metadata file belongs to a job. *)
Definition snapshots_agree (m : JobManager.t) : Prop :=
  NoDup (job_keys m)
  ∧ (∀ id j, JobManager.get_job id m = Some j →
             ProcessingJob.job_id j = id
             ∧ JobManager.load_job_metadata id m
               = Some (ProcessingJob.to_dict j))
  ∧ (∀ f d, JobManager.storage m !! f = Some d →
            ∃ id, f = JobManager.metadata_file id
                  ∧ is_Some (JobManager.get_job id m)).

(** What [__init__] sets up and no operation changes. *)
Definition well_shaped (j : ProcessingJob.t) : Prop :=
  ProcessingJob.segments_total j = length (ProcessingJob.segments j)
  ∧ map AudioSegment.index (ProcessingJob.segments j)
    = seq 0 (length (ProcessingJob.segments j))
  ∧ Forall (λ seg, AudioSegment.duration seg
                   = (AudioSegment.end_time seg - AudioSegment.start_time seg)%Q)
           (ProcessingJob.segments j)
  ∧ ProcessingJob.preview_url j = None.

(** ** Further predicates on stages *)

Definition answers_true (r : Result bool) : bool :=
  match r with
  | Ok true => true
  | _ => false
  end.

(** The model is loaded already, or [load] returns. *)
Definition loads (w : WrapperCalls) : bool :=
  match is_loaded w with
  | Ok true => true
  | Ok false => match load w with Ok _ => true | Raise _ => false end
  | Raise _ => false
  end.

(** The wrapper is available, loads and processes with a truthy result. *)
Definition stage_produces (w : WrapperCalls) : bool :=
  answers_true (is_available w) && loads w && answers_true (process w).

(** The line of the concat list for one file. *)
Definition concat_line (absolute : string → string) (path : string) : string :=
  "file '" +:+ absolute path +:+ "'" +:+ newline.

(** ** Further predicates on runs *)



(** ** Fixtures: configurations, jobs, wrappers and worlds *)

Definition default_config : AudioProcessingConfig :=
  mkConfig true WAV true true true true
           ["swiftf0"; "svc"; "instrumental"; "mixing"].

Definition segment_at (start stop : Q) (path : string) : SegmentData :=
  mkSegmentData (Some start) (Some stop) None (Some path).

Definition five_segments : list SegmentData :=
  [segment_at 0 30 "in/seg0.wav"; segment_at 30 60 "in/seg1.wav";
   segment_at 60 90 "in/seg2.wav"; segment_at 90 120 "in/seg3.wav";
   segment_at 120 150 "in/seg4.wav"].

Definition one_job : JobManager.t :=
  (JobManager.create_job "job-1" 1000 1000 default_config five_segments
     JobManager.init).2.

Definition running_job : JobManager.t :=
  JobManager.update_job_status "job-1" RUNNING "Starting pipeline" None one_job.

Definition three_jobs : JobManager.t :=
  let m := one_job in
  let m := (JobManager.create_job "job-2" 3000 3000 default_config [] m).2 in
  let m := (JobManager.create_job "job-3" 2000 2000 default_config [] m).2 in
  JobManager.update_job_status "job-3" RUNNING "Starting pipeline" None m.

Definition ready_wrapper : WrapperCalls :=
  mkWrapperCalls (Ok true) (Ok true) (Ok ()) (Ok true).

Definition raising_wrapper : WrapperCalls :=
  mkWrapperCalls (Ok true) (Ok true) (Ok ())
    (Raise (mkException "RuntimeError" "CUDA out of memory")).

Definition unavailable_wrapper : WrapperCalls :=
  mkWrapperCalls (Ok false) (Ok false) (Ok ()) (Ok true).

(** Every file exists, every wrapper works, ffmpeg succeeds. *)
Definition calm_env : Env :=
  mkEnv (λ _, 2000%Z) (λ _, true) (λ _ _, ready_wrapper) (λ _, true)
        (λ _, Ok ()) (Ok ()).

(** As [calm_env], with another wrapper at the first stage. *)
Definition env_with_first_stage (w : WrapperCalls) : Env :=
  mkEnv (λ _, 2000%Z) (λ _, true)
        (λ _ stage_idx, if decide (stage_idx = 0) then w else ready_wrapper)
        (λ _, true) (λ _, Ok ()) (Ok ()).

(** No file exists; the wrappers and ffmpeg would work. *)
Definition no_files_env : Env :=
  mkEnv (λ _, 2000%Z) (λ _, false) (λ _ _, ready_wrapper) (λ _, false)
        (λ _, Ok ()) (Ok ()).

(** As [calm_env], with the source file of segment 1 missing. *)
Definition second_missing_env : Env :=
  mkEnv (λ _, 2000%Z) (λ idx, negb (idx =? 1)) (λ _ _, ready_wrapper)
        (λ _, true) (λ _, Ok ()) (Ok ()).

(** As [calm_env], with ffmpeg failing on the conversion of segment 2. *)
Definition third_conversion_fails_env : Env :=
  mkEnv (λ _, 2000%Z) (λ _, true) (λ _ _, ready_wrapper) (λ _, true)
        (λ idx, if idx =? 2
                then Raise (mkException "CalledProcessError"
                              "ffmpeg returned non-zero exit status 1")
                else Ok ())
        (Ok ()).

(** * Properties *)

(** ** Dictionaries *)

Section dict_facts.
Context {V : Type}.
Implicit Types (d : PyDict.t V) (k : string) (v : V).

Lemma dict_get_set_eq d k v : PyDict.get k (PyDict.set k v d) = Some v.
Proof.
  induction d as [|[k' v'] d IH]; simpl.
  - by rewrite String.eqb_refl.
  - destruct (String.eqb k k') eqn:E; simpl.
    + by rewrite String.eqb_refl.
    + by rewrite E.
Qed.

Lemma dict_get_set_ne d k k' v :
  k ≠ k' → PyDict.get k' (PyDict.set k v d) = PyDict.get k' d.
Proof.
  intros Hne. induction d as [|[k0 v0] d IH]; simpl.
  - apply String.eqb_neq in Hne. rewrite String.eqb_sym in Hne.
    by rewrite Hne.
  - destruct (String.eqb k k0) eqn:E; simpl.
    + apply String.eqb_eq in E as <-.
      assert (String.eqb k' k = false) as ->; [|done].
      apply String.eqb_neq. congruence.
    + by rewrite IH.
Qed.

Lemma dict_Forall_set (P : V → Prop) d k v :
  P v → Forall (λ kv, P kv.2) d → Forall (λ kv, P kv.2) (PyDict.set k v d).
Proof.
  intros Hv. induction 1 as [|[k' v'] d Hx Hd IH]; simpl.
  - by repeat constructor.
  - destruct (String.eqb k k'); constructor; auto.
Qed.

Lemma dict_Forall_del (P : V → Prop) d k :
  Forall (λ kv, P kv.2) d → Forall (λ kv, P kv.2) (PyDict.del k d).
Proof.
  induction 1 as [|[k' v'] d Hx Hd IH]; simpl; [constructor|].
  destruct (String.eqb k k'); [done|]. by constructor.
Qed.

Lemma dict_Forall_get (P : V → Prop) d k v :
  Forall (λ kv, P kv.2) d → PyDict.get k d = Some v → P v.
Proof.
  induction 1 as [|[k' v'] d Hx Hd IH]; simpl; [done|].
  destruct (String.eqb k k'); [|done]. by intros [= <-].
Qed.

End dict_facts.

(** ** Reading a job back after an operation *)

Section manager_facts.
Implicit Types (m : JobManager.t) (j : ProcessingJob.t) (id : string).

Lemma get_job_save m id j :
  JobManager.get_job id (JobManager._save_job_metadata j m)
  = JobManager.get_job id m.
Proof. done. Qed.

Lemma get_job_write m id j :
  JobManager.get_job id (JobManager.write_job id j m) = Some j.
Proof. apply dict_get_set_eq. Qed.

Lemma get_job_write_ne m id id' j :
  id ≠ id' →
  JobManager.get_job id' (JobManager.write_job id j m)
  = JobManager.get_job id' m.
Proof. apply dict_get_set_ne. Qed.

Lemma get_job_stored m id j :
  JobManager.get_job id
    (JobManager._save_job_metadata j (JobManager.write_job id j m)) = Some j.
Proof. by rewrite get_job_save, get_job_write. Qed.

Lemma get_job_update_job_progress m id j p stage msg now :
  JobManager.get_job id m = Some j →
  JobManager.get_job id (JobManager.update_job_progress id p stage msg now m)
  = Some (ProcessingJob.update_progress p stage msg now j).
Proof.
  intros Hj. unfold JobManager.update_job_progress. rewrite Hj.
  apply get_job_stored.
Qed.

Lemma get_job_update_segment_status m id j i s pp rp now :
  JobManager.get_job id m = Some j →
  JobManager.get_job id
    (JobManager.update_segment_status id i s pp rp now m)
  = Some (ProcessingJob.update_segment_status i s pp rp now j).
Proof.
  intros Hj. unfold JobManager.update_segment_status. rewrite Hj.
  apply get_job_stored.
Qed.

Lemma get_job_update_job_status m id j s msg p :
  JobManager.get_job id m = Some j →
  ProcessingJob.status
    <$> JobManager.get_job id (JobManager.update_job_status id s msg p m)
  = Some s.
Proof.
  intros Hj. unfold JobManager.update_job_status. rewrite Hj.
  rewrite get_job_stored. by destruct p.
Qed.

Lemma get_job_complete_job m id j r now :
  JobManager.get_job id m = Some j →
  ∃ j', JobManager.get_job id (JobManager.complete_job id r now m) = Some j'
        ∧ ProcessingJob.status j' = COMPLETED
        ∧ ProcessingJob.results j' = Some r
        ∧ ProcessingJob.segments j' = ProcessingJob.segments j.
Proof.
  intros Hj. unfold JobManager.complete_job. rewrite Hj.
  eexists. by rewrite get_job_stored.
Qed.

Lemma get_job_fail_job m id j e now :
  JobManager.get_job id m = Some j →
  ∃ j', JobManager.get_job id (JobManager.fail_job id e now m) = Some j'
        ∧ ProcessingJob.status j' = FAILED
        ∧ ProcessingJob.message j' = "Job failed: " +:+ e
        ∧ ProcessingJob.results j' = ProcessingJob.results j
        ∧ ProcessingJob.segments j' = ProcessingJob.segments j.
Proof.
  intros Hj. unfold JobManager.fail_job. rewrite Hj.
  eexists. by rewrite get_job_stored.
Qed.

End manager_facts.

(** ** Terminal statuses (C1) *)

(** C1, as stated, fails: a job that was cancelled is still moved to
    Completed by [complete_job], to Running by [update_job_status] and to
    Failed by [fail_job]. *)
Lemma terminal_status_overwritten :
  let cancelled := JobManager.cancel_job "job-1" 1001 one_job in
  cancelled.1 = true
  ∧ job_status "job-1" cancelled.2 = Some CANCELLED
  ∧ job_status "job-1"
      (JobManager.complete_job "job-1"
         (PipelineResults.mk "job-1" None []) 1002 cancelled.2)
    = Some COMPLETED
  ∧ job_status "job-1"
      (JobManager.update_job_status "job-1" RUNNING "Starting pipeline" None
         cancelled.2)
    = Some RUNNING
  ∧ job_status "job-1" (JobManager.fail_job "job-1" "boom" 1002 cancelled.2)
    = Some FAILED.
Proof. vm_compute. done. Qed.

(** C1, amended: on a job whose status is Failed or Cancelled,
    [cancel_job] is rejected (it returns [False] and changes nothing),
    while [update_job_status], [complete_job] and [fail_job] are not
    guarded: they set the status to the one asked for, to Completed and
    to Failed. *)
Theorem terminal_job_only_cancel_rejected m id j :
  JobManager.get_job id m = Some j →
  ProcessingJob.status j = FAILED ∨ ProcessingJob.status j = CANCELLED →
  (∀ now, JobManager.cancel_job id now m = (false, m))
  ∧ (∀ s msg p,
       job_status id (JobManager.update_job_status id s msg p m) = Some s)
  ∧ (∀ r now,
       job_status id (JobManager.complete_job id r now m) = Some COMPLETED)
  ∧ (∀ e now, job_status id (JobManager.fail_job id e now m) = Some FAILED).
Proof.
  intros Hj Hterm. repeat split.
  - intros now. unfold JobManager.cancel_job. rewrite Hj.
    by destruct Hterm as [-> | ->].
  - intros s msg p. by apply get_job_update_job_status with (j := j).
  - intros r now. unfold job_status.
    destruct (get_job_complete_job m id j r now Hj) as (j' & -> & Hs & _).
    simpl. by rewrite Hs.
  - intros e now. unfold job_status.
    destruct (get_job_fail_job m id j e now Hj) as (j' & -> & Hs & _).
    simpl. by rewrite Hs.
Qed.

Lemma terminal_job_only_cancel_rejected_witness :
  let m := (JobManager.cancel_job "job-1" 1001 one_job).2 in
  JobManager.cancel_job "job-1" 1005 m = (false, m)
  ∧ job_status "job-1"
      (JobManager.complete_job "job-1" (PipelineResults.mk "job-1" None [])
         1006 m) = Some COMPLETED.
Proof.
  intros m.
  assert (∃ j, JobManager.get_job "job-1" m = Some j
               ∧ ProcessingJob.status j = CANCELLED) as (j & Hj & Hs).
  { eexists. split; reflexivity. }
  destruct (terminal_job_only_cancel_rejected m "job-1" j Hj (or_intror Hs))
    as (Hcancel & _ & Hcomplete & _).
  split; [apply Hcancel | apply Hcomplete].
Defined.

(** ** Progress (C2) *)

Lemma segment_progress_mono total i k :
  i ≤ k → k < total →
  (AudioPipelineProcessor.segment_progress i total
   <= AudioPipelineProcessor.segment_progress k total)%Q.
Proof.
  intros Hik Hk. unfold AudioPipelineProcessor.segment_progress.
  apply Qmult_le_compat_r; [|done].
  unfold Qdiv. apply Qmult_le_compat_r.
  - rewrite <- Zle_Qle. lia.
  - apply Qinv_le_0_compat. replace 0%Q with (inject_Z 0) by done.
    rewrite <- Zle_Qle. lia.
Qed.

(** With eleven segments the progress reported before the last segment
    is above the 90 that [process] reports next, before combining. *)
Lemma combining_progress_below_last_segment :
  (90 < AudioPipelineProcessor.segment_progress 10 11)%Q.
Proof. done. Qed.

(** The same on a run of [process]: a Running job of eleven segments
    shows progress 1000/11 when the loop ends and 90 once combining is
    announced. *)
Lemma progress_drops_before_combining :
  let segments := replicate 11 (segment_at 0 30 "in/seg.wav") in
  let started :=
    JobManager.update_job_status "job-9" RUNNING "Starting pipeline" None
      (JobManager.create_job "job-9" 1000 1000 default_config segments
         JobManager.init).2 in
  let looped :=
    (AudioPipelineProcessor.process_segments "audio_temp" calm_env "job-9"
       default_config 11 (enumerate segments) started []).1 in
  let combining :=
    JobManager.update_job_progress "job-9" 90 "combining_segments"
      "Combining processed segments" (clock calm_env AtCombining) looped in
  job_status "job-9" looped = Some RUNNING
  ∧ job_progress "job-9" looped = Some (1000 # 11)
  ∧ job_status "job-9" combining = Some RUNNING
  ∧ job_progress "job-9" combining = Some 90%Q
  ∧ (90 < 1000 # 11)%Q.
Proof. vm_compute. done. Qed.

(** C2, as stated, fails: on a Completed job [update_job_progress] is
    not a no-op, and on a Running job it lowers the progress. *)
Lemma progress_overwritten :
  let running :=
    JobManager.update_job_status "job-1" RUNNING "Starting pipeline"
      (Some 50%Q) one_job in
  let completed :=
    JobManager.complete_job "job-1" (PipelineResults.mk "job-1" None [])
      1002 running in
  (job_status "job-1" running = Some RUNNING
   ∧ job_progress "job-1" running = Some 50%Q
   ∧ job_progress "job-1"
       (JobManager.update_job_progress "job-1" 10 "stage" "msg" 1003 running)
     = Some 10%Q
   ∧ (10 < 50)%Q)
  ∧ (job_status "job-1" completed = Some COMPLETED
     ∧ job_progress "job-1" completed = Some 100%Q
     ∧ job_progress "job-1"
         (JobManager.update_job_progress "job-1" 10 "stage" "msg" 1003
            completed)
       = Some 10%Q).
Proof. vm_compute. done. Qed.

(** C2, amended: for every job the manager holds, whatever its status,
    [update_job_progress] stores the progress, stage label and message it
    is given and the current time, and leaves the status as it is (no
    terminal no-op, no clamp to the last value); the values that the
    segment loop of the orchestrator passes, [idx / len * 100], do not
    decrease as [idx] grows. *)
Theorem update_job_progress_unguarded m id j p stage msg now :
  JobManager.get_job id m = Some j →
  (∃ j',
     JobManager.get_job id
       (JobManager.update_job_progress id p stage msg now m) = Some j'
     ∧ ProcessingJob.progress j' = p
     ∧ ProcessingJob.current_stage j' = stage
     ∧ ProcessingJob.message j' = msg
     ∧ ProcessingJob.updated_at j' = now
     ∧ ProcessingJob.status j' = ProcessingJob.status j
     ∧ ProcessingJob.segments j' = ProcessingJob.segments j)
  ∧ (∀ total i k,
       i ≤ k → k < total →
       (AudioPipelineProcessor.segment_progress i total
        <= AudioPipelineProcessor.segment_progress k total)%Q).
Proof.
  intros Hj. split.
  - eexists. split; [by apply get_job_update_job_progress|done].
  - intros total i k. apply segment_progress_mono.
Qed.

Lemma update_job_progress_unguarded_witness :
  let m :=
    JobManager.complete_job "job-1" (PipelineResults.mk "job-1" None [])
      1002 one_job in
  ∃ j',
    JobManager.get_job "job-1"
      (JobManager.update_job_progress "job-1" 10 "stage" "msg" 1003 m)
    = Some j'
    ∧ ProcessingJob.progress j' = 10%Q
    ∧ ProcessingJob.status j' = COMPLETED.
Proof.
  intros m.
  destruct (JobManager.get_job "job-1" m) as [j|] eqn:Hj;
    [|vm_compute in Hj; discriminate].
  destruct (update_job_progress_unguarded m "job-1" j 10 "stage" "msg" 1003 Hj)
    as [(j' & Hget & Hp & _ & _ & _ & Hs & _) _].
  exists j'. repeat split; [done..|].
  rewrite Hs. vm_compute in Hj. by injection Hj as <-.
Defined.

(** ** Job creation (C6) *)



Lemma count_done_fresh (l : list (nat * SegmentData)) :
  ProcessingJob.count_done
    (map (λ '(idx, seg_data), ProcessingJob.segment_of_data idx seg_data) l)
  = 0.
Proof. induction l as [|[idx sd] l IH]; [done|]. exact IH. Qed.

Lemma length_enumerate {A} (l : list A) : length (enumerate l) = length l.
Proof. apply length_imap. Qed.



(** ** The completed-segment counter (C9) *)

Lemma all_counters_agree_stored m id j :
  all_counters_agree m → counter_agrees j →
  all_counters_agree
    (JobManager._save_job_metadata j (JobManager.write_job id j m)).
Proof. intros Hm Hj. by apply dict_Forall_set. Qed.

Lemma counter_agrees_update_segment_status j i s pp rp now :
  counter_agrees j →
  counter_agrees (ProcessingJob.update_segment_status i s pp rp now j).
Proof.
  intros Hj. unfold ProcessingJob.update_segment_status.
  by destruct (_ && _).
Qed.

Lemma segment_done_spec seg :
  ProcessingJob.segment_done seg
  = bool_decide (AudioSegment.status seg = COMPLETED
                 ∨ AudioSegment.status seg = FAILED).
Proof.
  unfold ProcessingJob.segment_done.
  destruct (AudioSegment.status seg); reflexivity.
Qed.

(** An operation that looks the job up and stores it back: either the
    job is absent and nothing changes, or the stored job must agree. *)
Ltac on_found_job op IH :=
  unfold op;
  lazymatch goal with
  | |- context [JobManager.get_job ?id ?m] =>
      let j := fresh "j" in
      let Hj := fresh "Hj" in
      destruct (JobManager.get_job id m) as [j|] eqn:Hj; [|exact IH];
      pose proof (dict_Forall_get _ _ _ _ IH Hj)
  end.

Lemma reachable_counters_agree m : reachable m → all_counters_agree m.
Proof.
  induction 1 as [ |m id t1 t2 cfg segs _ IH|m id s msg p _ IH
                 |m id p st msg now _ IH|m id i s pp rp now _ IH
                 |m id r now _ IH|m id e now _ IH|m id now _ IH|m id _ IH].
  - constructor.
  - apply all_counters_agree_stored; [done|].
    unfold counter_agrees. simpl. by rewrite count_done_fresh.
  - on_found_job JobManager.update_job_status IH.
    apply all_counters_agree_stored; [done|]. by destruct p.
  - on_found_job JobManager.update_job_progress IH.
    by apply all_counters_agree_stored.
  - on_found_job JobManager.update_segment_status IH.
    apply all_counters_agree_stored; [done|].
    by apply counter_agrees_update_segment_status.
  - on_found_job JobManager.complete_job IH.
    by apply all_counters_agree_stored.
  - on_found_job JobManager.fail_job IH.
    by apply all_counters_agree_stored.
  - on_found_job JobManager.cancel_job IH.
    destruct (JobManager.cancellable _); [|exact IH].
    by apply all_counters_agree_stored.
  - unfold JobManager.delete_job.
    destruct (PyDict.get id (JobManager.jobs m)); [|done].
    by apply dict_Forall_del.
Qed.

(** C9: in every state that the operations of the job manager can
    produce, the [segments_completed] field of every job equals the
    number of its segments whose status is Completed or Failed. *)
Theorem segments_completed_counts_done m job_id j :
  reachable m →
  JobManager.get_job job_id m = Some j →
  ProcessingJob.segments_completed j
  = length
      (List.filter
         (λ seg, bool_decide (AudioSegment.status seg = COMPLETED
                              ∨ AudioSegment.status seg = FAILED))
         (ProcessingJob.segments j)).
Proof.
  intros Hm Hj.
  pose proof (dict_Forall_get _ _ _ _ (reachable_counters_agree m Hm) Hj) as H.
  rewrite H. unfold ProcessingJob.count_done. f_equal.
  apply List.filter_ext. intros seg. apply segment_done_spec.
Qed.

Lemma segments_completed_counts_done_witness :
  let m :=
    JobManager.update_segment_status "job-1" 1 FAILED None None 1002
      (JobManager.update_segment_status "job-1" 0 COMPLETED None
         (Some "out/seg0.wav") 1001 one_job) in
  reachable m
  ∧ ∃ j, JobManager.get_job "job-1" m = Some j
         ∧ ProcessingJob.segments_completed j = 2
         ∧ length
             (List.filter
                (λ seg, bool_decide (AudioSegment.status seg = COMPLETED
                                     ∨ AudioSegment.status seg = FAILED))
                (ProcessingJob.segments j)) = 2.
Proof.
  intros m.
  assert (reachable m) as Hm.
  { do 2 apply reach_update_segment_status.
    apply (reach_create_job JobManager.init). apply reach_init. }
  split; [exact Hm|].
  destruct (JobManager.get_job "job-1" m) as [j|] eqn:Hj;
    [|vm_compute in Hj; discriminate].
  exists j. split; [done|].
  pose proof (segments_completed_counts_done m "job-1" j Hm Hj) as Hcount.
  rewrite <- Hcount.
  vm_compute in Hj. injection Hj as <-. by split.
Defined.

(** ** Listing jobs (C10) *)

Lemma insert_newest_first_perm j l :
  Permutation (JobManager.insert_newest_first j l) (j :: l).
Proof.
  induction l as [|j' l IH]; simpl; [done|].
  destruct (_ <? _)%Z; [|done].
  rewrite IH. apply perm_swap.
Qed.

Lemma sort_newest_first_perm l :
  Permutation (JobManager.sort_newest_first l) l.
Proof.
  induction l as [|j l IH]; simpl; [done|].
  rewrite insert_newest_first_perm. by constructor.
Qed.

Lemma insert_newest_first_HdRel a j l :
  newest_first a j → HdRel newest_first a l →
  HdRel newest_first a (JobManager.insert_newest_first j l).
Proof.
  intros Haj Hal. destruct l as [|j' l]; simpl; [by constructor|].
  destruct (_ <? _)%Z; constructor; [|done].
  by inversion Hal.
Qed.

Lemma insert_newest_first_sorted j l :
  Sorted newest_first l →
  Sorted newest_first (JobManager.insert_newest_first j l).
Proof.
  induction 1 as [|j' l Hl IH Hhd]; simpl; [by repeat constructor|].
  destruct (_ <? _)%Z eqn:E.
  - constructor; [done|].
    apply insert_newest_first_HdRel; [|done].
    unfold newest_first. lia.
  - constructor; [by constructor|].
    constructor. unfold newest_first. lia.
Qed.

Lemma sort_newest_first_sorted l :
  Sorted newest_first (JobManager.sort_newest_first l).
Proof.
  induction l as [|j l IH]; simpl; [constructor|].
  by apply insert_newest_first_sorted.
Qed.

Lemma JobStatus_of_value_unknown v :
  (∀ s, JobStatus_value s ≠ v) → ∃ e, JobStatus_of_value v = Raise e.
Proof.
  intros Hv. unfold JobStatus_of_value.
  destruct (List.find _ all_statuses) as [s|] eqn:E; [|by eexists].
  apply find_some in E as [_ E]. apply String.eqb_eq in E.
  by destruct (Hv s).
Qed.

Lemma length_slice_to {A} (limit : Z) (l : list A) :
  (0 ≤ limit)%Z → length (slice_to limit l) ≤ Z.to_nat limit.
Proof.
  intros Hl. unfold slice_to.
  destruct (0 <=? limit)%Z eqn:E; [|lia].
  rewrite length_take. lia.
Qed.

(** C10: when [status_filter] does not name a status (after
    lower-casing, as the code compares it), [list_jobs] ignores it: it
    returns what it returns without a filter, namely the jobs of every
    status, newest first, cut to the limit. *)
Theorem list_jobs_ignores_unknown_filter m limit f :
  (∀ s, JobStatus_value s ≠ lower f) →
  let newest := JobManager.sort_newest_first
                  (PyDict.values (JobManager.jobs m)) in
  JobManager.list_jobs limit (Some f) m = JobManager.list_jobs limit None m
  ∧ JobManager.list_jobs limit (Some f) m
    = map ProcessingJob.to_dict (slice_to limit newest)
  ∧ Permutation newest (PyDict.values (JobManager.jobs m))
  ∧ Sorted newest_first newest
  ∧ ((0 ≤ limit)%Z →
     length (JobManager.list_jobs limit (Some f) m) ≤ Z.to_nat limit).
Proof.
  intros Hf newest.
  assert (JobManager.list_jobs limit (Some f) m
          = map ProcessingJob.to_dict (slice_to limit newest)) as Heq.
  { unfold JobManager.list_jobs, JobManager.apply_status_filter.
    destruct (JobStatus_of_value_unknown _ Hf) as [e ->].
    by destruct (truthy (Some f)). }
  repeat split.
  - by rewrite Heq.
  - exact Heq.
  - apply sort_newest_first_perm.
  - apply sort_newest_first_sorted.
  - intros Hl. rewrite Heq, length_map. by apply length_slice_to.
Qed.

Lemma list_jobs_ignores_unknown_filter_witness :
  map ProcessingJob.d_job_id (JobManager.list_jobs 2 (Some "Bogus") three_jobs)
  = ["job-2"; "job-3"]
  ∧ JobManager.list_jobs 2 (Some "Bogus") three_jobs
    = JobManager.list_jobs 2 None three_jobs.
Proof.
  assert (∀ s, JobStatus_value s ≠ lower "Bogus") as Hf.
  { intros s. destruct s; vm_compute; discriminate. }
  destruct (list_jobs_ignores_unknown_filter three_jobs 2 "Bogus" Hf)
    as (Hsame & Heq & _).
  split; [|exact Hsame].
  rewrite Heq. reflexivity.
Defined.

(** A filter that names a status, in any letter case, is applied. *)
Lemma list_jobs_known_filter :
  map ProcessingJob.d_job_id
      (JobManager.list_jobs 50 (Some "RUNNING") three_jobs) = ["job-3"]
  ∧ map ProcessingJob.d_job_id (JobManager.list_jobs 50 None three_jobs)
    = ["job-2"; "job-3"; "job-1"]
  ∧ map ProcessingJob.d_job_id (JobManager.list_jobs (-1) None three_jobs)
    = ["job-2"; "job-3"].
Proof. vm_compute. done. Qed.

(** ** Stages of a segment (C4, C7) *)

Section stage_facts.
Variable temp_dir : string.
Variable env : Env.

Abbreviation _process_with := (AudioPipelineProcessor._process_with temp_dir).
Abbreviation run_stage := (AudioPipelineProcessor.run_stage temp_dir env).

Lemma _process_with_unavailable suffix input wrapper job_id idx :
  is_available wrapper = Ok false →
  _process_with suffix input wrapper job_id idx = Ok input.
Proof.
  intros Ha. unfold AudioPipelineProcessor._process_with.
  destruct (truthy input); [|done]. by rewrite Ha.
Qed.

Lemma _process_with_process_raises suffix input wrapper job_id idx e :
  is_available wrapper = Ok true →
  process wrapper = Raise e →
  _process_with suffix input wrapper job_id idx = Ok input.
Proof.
  intros Ha Hp. unfold AudioPipelineProcessor._process_with.
  destruct (truthy input); [|done]. rewrite Ha, Hp. simpl.
  destruct (is_loaded wrapper) as [[|]|]; simpl; [done| |done].
  by destruct (load wrapper).
Qed.

(** A helper never raises once [is_available] has answered. *)
Lemma _process_with_returns suffix input wrapper job_id idx b :
  is_available wrapper = Ok b →
  ∃ output, _process_with suffix input wrapper job_id idx = Ok output.
Proof.
  intros Ha. unfold AudioPipelineProcessor._process_with.
  destruct (truthy input); [|by eexists]. rewrite Ha. simpl.
  destruct b; simpl; [|by eexists].
  destruct (do _ <- _ ; _); by eexists.
Qed.

Lemma run_stage_model_stage config job_id idx audio stages stage_idx stage :
  stage ∈ model_stages →
  stage_enabled config stage = true →
  run_stage config job_id idx (audio, stages) (stage_idx, stage)
  = match _process_with stage audio (wrapper_calls env idx stage_idx)
            job_id idx with
    | Ok output => (output, PyDict.set stage (StageCompleted output) stages)
    | Raise e => (audio, PyDict.set stage (StageFailed (str_exc e)) stages)
    end.
Proof.
  intros Hstage Hen. unfold model_stages in Hstage.
  repeat (apply elem_of_cons in Hstage as [->|Hstage]);
    [| | |by apply elem_of_nil in Hstage];
    unfold stage_enabled in Hen; simpl in Hen;
    unfold AudioPipelineProcessor.run_stage; simpl; rewrite Hen;
    unfold AudioPipelineProcessor._process_swiftf0,
      AudioPipelineProcessor._process_svc,
      AudioPipelineProcessor._process_instrumental;
    by destruct (_process_with _ _ _ _ _).
Qed.

(** What the code does with an enabled model stage whose [process]
    raises: the audio passes through, and the entry says completed. *)
Lemma run_stage_process_raises config job_id idx audio stages stage_idx
    stage e :
  stage ∈ model_stages →
  stage_enabled config stage = true →
  is_available (wrapper_calls env idx stage_idx) = Ok true →
  process (wrapper_calls env idx stage_idx) = Raise e →
  run_stage config job_id idx (audio, stages) (stage_idx, stage)
  = (audio, PyDict.set stage (StageCompleted audio) stages).
Proof.
  intros Hstage Hen Ha Hp.
  rewrite run_stage_model_stage by done.
  by rewrite (_process_with_process_raises _ _ _ _ _ e).
Qed.

(** What the code does with an enabled model stage that reports
    unavailable: the audio passes through, and the entry says completed. *)
Lemma run_stage_unavailable config job_id idx audio stages stage_idx stage :
  stage ∈ model_stages →
  stage_enabled config stage = true →
  is_available (wrapper_calls env idx stage_idx) = Ok false →
  run_stage config job_id idx (audio, stages) (stage_idx, stage)
  = (audio, PyDict.set stage (StageCompleted audio) stages).
Proof.
  intros Hstage Hen Ha.
  rewrite run_stage_model_stage by done.
  by rewrite _process_with_unavailable.
Qed.

End stage_facts.

(** C4, at the failing input: swiftf0 is enabled and available and its
    [process] raises on segment 0.  The audio passes through unchanged
    and the next stage works on it, but the entry of the stage says
    completed, with the input as its output, where the claim has failed
    with the reason. *)
Theorem raising_stage_recorded_completed :
  let env := env_with_first_stage raising_wrapper in
  AudioPipelineProcessor.run_stage "audio_temp" env default_config "job-1" 0
    (Some "in/seg0.wav", []) (0, "swiftf0")
  = (Some "in/seg0.wav", [("swiftf0", StageCompleted (Some "in/seg0.wav"))])
  ∧ segment_stages
      (AudioPipelineProcessor._process_segment "audio_temp" env "job-1" 0
         (segment_at 0 30 "in/seg0.wav") default_config)
    = [("swiftf0", StageCompleted (Some "in/seg0.wav"));
       ("svc", StageCompleted (Some "audio_temp/job-1_segment_0_svc.wav"));
       ("instrumental",
        StageCompleted (Some "audio_temp/job-1_segment_0_instrumental.wav"));
       ("mixing", StageSkipped "Requires multiple tracks")]
  ∧ PyDict.get "swiftf0"
      (segment_stages
         (AudioPipelineProcessor._process_segment "audio_temp" env "job-1" 0
            (segment_at 0 30 "in/seg0.wav") default_config))
    ≠ Some (StageFailed "CUDA out of memory").
Proof. vm_compute. repeat split; discriminate. Qed.

(** C7, at the failing input: swiftf0 is enabled and reports unavailable
    on segment 0.  The segment is not blocked and the audio passes
    through, but the entry of the stage says completed where the claim
    has skipped. *)
Theorem unavailable_stage_recorded_completed :
  let env := env_with_first_stage unavailable_wrapper in
  AudioPipelineProcessor.run_stage "audio_temp" env default_config "job-1" 0
    (Some "in/seg0.wav", []) (0, "swiftf0")
  = (Some "in/seg0.wav", [("swiftf0", StageCompleted (Some "in/seg0.wav"))])
  ∧ PyDict.get "swiftf0"
      (segment_stages
         (AudioPipelineProcessor._process_segment "audio_temp" env "job-1" 0
            (segment_at 0 30 "in/seg0.wav") default_config))
    = Some (StageCompleted (Some "in/seg0.wav"))
  ∧ (∀ reason,
       PyDict.get "swiftf0"
         (segment_stages
            (AudioPipelineProcessor._process_segment "audio_temp" env "job-1"
               0 (segment_at 0 30 "in/seg0.wav") default_config))
       ≠ Some (StageSkipped reason)).
Proof. vm_compute. repeat split; intros; discriminate. Qed.

(** ** The segment loop *)

Lemma list_alter_out_of_range {A} (f : A → A) (l : list A) i :
  length l ≤ i → alter f i l = l.
Proof.
  revert i. induction l as [|x l IH]; intros [|i] Hi; simpl in *;
    [done|done|lia|].
  f_equal. apply IH. lia.
Qed.

Lemma status_update_segment s pp rp seg :
  AudioSegment.status (ProcessingJob.update_segment s pp rp seg) = s.
Proof.
  unfold ProcessingJob.update_segment. by destruct (truthy pp), (truthy rp).
Qed.

Lemma segments_update_segment_status (i : nat) s pp rp now j :
  ProcessingJob.segments
    (ProcessingJob.update_segment_status (Z.of_nat i) s pp rp now j)
  = alter (ProcessingJob.update_segment s pp rp) i (ProcessingJob.segments j).
Proof.
  unfold ProcessingJob.update_segment_status.
  destruct (_ && _) eqn:E; simpl.
  - by rewrite Nat2Z.id.
  - symmetry. apply list_alter_out_of_range.
    apply andb_false_iff in E as [E|E]; lia.
Qed.

Lemma status_update_segment_status i s pp rp now j :
  ProcessingJob.status (ProcessingJob.update_segment_status i s pp rp now j)
  = ProcessingJob.status j.
Proof.
  unfold ProcessingJob.update_segment_status. by destruct (_ && _).
Qed.

Lemma results_update_segment_status i s pp rp now j :
  ProcessingJob.results (ProcessingJob.update_segment_status i s pp rp now j)
  = ProcessingJob.results j.
Proof.
  unfold ProcessingJob.update_segment_status. by destruct (_ && _).
Qed.

Section loop_facts.
Variable temp_dir : string.
Variable env : Env.
Variable job_id : string.
Variable config : AudioProcessingConfig.
Variable total : nat.

Abbreviation _process_segment idx sd :=
  (AudioPipelineProcessor._process_segment temp_dir env job_id idx sd config).
Abbreviation process_segments :=
  (AudioPipelineProcessor.process_segments temp_dir env job_id config total).
Abbreviation usable := (final_audio_usable temp_dir env job_id config).

Lemma _process_segment_unusable idx sd :
  usable idx sd = false →
  ∃ r, _process_segment idx sd = Ok r
       ∧ SegmentResult.output_path r = None
       ∧ SegmentResult.preview_path r = None.
Proof.
  unfold final_audio_usable, AudioPipelineProcessor._process_segment.
  destruct (AudioPipelineProcessor.run_stages _ _ _ _ _ _) as [audio stages].
  simpl. intros ->. by eexists.
Qed.

Lemma _process_segment_usable idx sd :
  usable idx sd = true →
  match convert_audio env idx with
  | Ok _ =>
      ∃ r, _process_segment idx sd = Ok r
           ∧ SegmentResult.output_path r
             = Some (AudioPipelineProcessor.segment_file temp_dir job_id idx
                       "final")
           ∧ SegmentResult.preview_path r = SegmentResult.output_path r
  | Raise e => _process_segment idx sd = Raise e
  end.
Proof.
  unfold final_audio_usable, AudioPipelineProcessor._process_segment.
  destruct (AudioPipelineProcessor.run_stages _ _ _ _ _ _) as [audio stages].
  simpl. intros ->. destruct (convert_audio env idx); [by eexists|done].
Qed.


(** One turn of the loop, seen from the job. *)
Lemma process_segments_turn idx sd items m acc j :
  JobManager.get_job job_id m = Some j →
  ∃ m_run j_run,
    JobManager.get_job job_id m_run = Some j_run
    ∧ ProcessingJob.status j_run = ProcessingJob.status j
    ∧ ProcessingJob.results j_run = ProcessingJob.results j
    ∧ ProcessingJob.progress j_run
      = AudioPipelineProcessor.segment_progress idx total
    ∧ ProcessingJob.segments j_run
      = alter (ProcessingJob.update_segment RUNNING None None) idx
              (ProcessingJob.segments j)
    ∧ match _process_segment idx sd with
      | Raise e => process_segments ((idx, sd) :: items) m acc = (m_run, Raise e)
      | Ok r =>
          ∃ m_done j_done,
            JobManager.get_job job_id m_done = Some j_done
            ∧ ProcessingJob.status j_done = ProcessingJob.status j
            ∧ ProcessingJob.results j_done = ProcessingJob.results j
            ∧ ProcessingJob.segments j_done
              = alter (ProcessingJob.update_segment COMPLETED
                         (SegmentResult.preview_path r)
                         (SegmentResult.output_path r))
                      idx (ProcessingJob.segments j_run)
            ∧ process_segments ((idx, sd) :: items) m acc
              = process_segments items m_done (acc ++ [r])
      end.
Proof.
  intros Hj. simpl.
  set (m1 := JobManager.update_job_progress _ _ _ _ _ m).
  set (m2 := JobManager.update_segment_status _ _ RUNNING _ _ _ m1).
  assert (∃ j1, JobManager.get_job job_id m1 = Some j1
                ∧ ProcessingJob.status j1 = ProcessingJob.status j
                ∧ ProcessingJob.results j1 = ProcessingJob.results j
                ∧ ProcessingJob.progress j1
                  = AudioPipelineProcessor.segment_progress idx total
                ∧ ProcessingJob.segments j1 = ProcessingJob.segments j)
    as (j1 & Hj1 & Hs1 & Hr1 & Hp1 & Hseg1).
  { eexists. split; [by apply get_job_update_job_progress|done]. }
  pose proof (get_job_update_segment_status m1 job_id j1 (Z.of_nat idx)
                RUNNING None None (clock env (AtSegmentRunning idx)) Hj1)
    as Hj2.
  fold m2 in Hj2.
  eexists m2, _. split; [exact Hj2|].
  rewrite status_update_segment_status, results_update_segment_status,
    segments_update_segment_status, Hs1, Hr1, Hseg1.
  do 2 (split; [done|]).
  split.
  { unfold ProcessingJob.update_segment_status. by destruct (_ && _). }
  split; [done|].
  destruct (_process_segment idx sd) as [r|e]; [|done].
  eexists _, _. split.
  { apply get_job_update_segment_status. exact Hj2. }
  rewrite !status_update_segment_status, !results_update_segment_status,
    !segments_update_segment_status, Hs1, Hr1, Hseg1.
  done.
Qed.

Lemma list_fmap_fst_cons {A B} (x : A * B) (l : list (A * B)) :
  (x :: l).*1 = x.1 :: l.*1.
Proof. done. Qed.

(** The loop when no call of [_process_segment] raises: it runs to its
    end, marks every segment it meets Completed and touches neither the
    other segments nor the job's status and results. *)
Lemma process_segments_returns items :
  ∀ m acc j,
    JobManager.get_job job_id m = Some j →
    Forall (λ item, ∃ r, _process_segment item.1 item.2 = Ok r) items →
    ∃ m' j' rs,
      process_segments items m acc = (m', Ok (acc ++ rs))
      ∧ Forall2 (λ item r, _process_segment item.1 item.2 = Ok r) items rs
      ∧ JobManager.get_job job_id m' = Some j'
      ∧ ProcessingJob.status j' = ProcessingJob.status j
      ∧ ProcessingJob.results j' = ProcessingJob.results j
      ∧ length (ProcessingJob.segments j') = length (ProcessingJob.segments j)
      ∧ (∀ i, i ∈ items.*1 → i < length (ProcessingJob.segments j) →
           AudioSegment.status <$> ProcessingJob.segments j' !! i
           = Some COMPLETED)
      ∧ (∀ i, i ∉ items.*1 →
           ProcessingJob.segments j' !! i = ProcessingJob.segments j !! i).
Proof.
  induction items as [|[idx sd] items IH]; intros m acc j Hj Hitems.
  - exists m, j, []. rewrite app_nil_r. simpl.
    repeat split; [constructor|done|].
    intros i Hi. by apply elem_of_nil in Hi.
  - apply Forall_cons in Hitems as [[r Hr] Hitems]. simpl in Hr.
    destruct (process_segments_turn idx sd items m acc j Hj)
      as (m_run & j_run & _ & _ & _ & _ & Hseg_run & Hturn).
    rewrite Hr in Hturn.
    destruct Hturn as (m_done & j_done & Hj_done & Hs & Hres & Hseg & Hturn).
    destruct (IH m_done (acc ++ [r]) j_done Hj_done Hitems)
      as (m' & j' & rs & Hrun & Hrs & Hj' & Hs' & Hres' & Hlen & Hin & Hout).
    assert (length (ProcessingJob.segments j_done)
            = length (ProcessingJob.segments j)) as Hlen_done.
    { by rewrite Hseg, Hseg_run, !length_alter. }
    exists m', j', (r :: rs).
    split; [by rewrite Hturn, Hrun, <- app_assoc|].
    split; [by constructor|].
    split; [done|]. split; [congruence|]. split; [congruence|].
    split; [congruence|]. split.
    + intros i Hi Hlt. rewrite list_fmap_fst_cons in Hi. simpl in Hi.
      destruct (decide (i ∈ items.*1)) as [Hi'|Hi'].
      { apply Hin; [done|lia]. }
      apply elem_of_cons in Hi as [->|Hi]; [|done].
      rewrite (Hout idx Hi'), Hseg, Hseg_run, !list_lookup_alter_eq.
      destruct (lookup_lt_is_Some_2 (ProcessingJob.segments j) idx Hlt)
        as [seg ->].
      simpl. by rewrite status_update_segment.
    + intros i Hi. rewrite list_fmap_fst_cons in Hi. simpl in Hi.
      apply not_elem_of_cons in Hi as [Hne Hi].
      rewrite (Hout i Hi), Hseg, Hseg_run.
      by rewrite !list_lookup_alter_ne.
Qed.

(** Whatever ends the loop, the job is still there, with the status and
    the results it had. *)
Lemma process_segments_keeps_job items :
  ∀ m acc j,
    JobManager.get_job job_id m = Some j →
    ∃ j1, JobManager.get_job job_id (process_segments items m acc).1 = Some j1
          ∧ ProcessingJob.status j1 = ProcessingJob.status j
          ∧ ProcessingJob.results j1 = ProcessingJob.results j.
Proof.
  induction items as [|[idx sd] items IH]; intros m acc j Hj.
  - by exists j.
  - destruct (process_segments_turn idx sd items m acc j Hj)
      as (m_run & j_run & Hj_run & Hs_run & Hres_run & _ & _ & Hturn).
    destruct (_process_segment idx sd) as [r|e].
    + destruct Hturn as (m_done & j_done & Hj_done & Hs & Hres & _ & ->).
      destruct (IH m_done (acc ++ [r]) j_done Hj_done) as (j1 & ? & ? & ?).
      exists j1. repeat split; congruence.
    + rewrite Hturn. exists j_run. by repeat split.
Qed.

End loop_facts.

(** ** The status a processed segment gets (C5) *)

Lemma truthy_segment_file temp_dir job_id idx suffix :
  truthy (Some (AudioPipelineProcessor.segment_file temp_dir job_id idx suffix))
  = true.
Proof.
  unfold AudioPipelineProcessor.segment_file,
    AudioPipelineProcessor.temp_file, truthy.
  by destruct temp_dir.
Qed.

Lemma result_path_update_segment s pp rp seg :
  AudioSegment.result_path (ProcessingJob.update_segment s pp rp seg)
  = if truthy rp then rp else AudioSegment.result_path seg.
Proof.
  unfold ProcessingJob.update_segment. by destruct (truthy pp), (truthy rp).
Qed.

Lemma preview_path_update_segment s pp rp seg :
  AudioSegment.preview_path (ProcessingJob.update_segment s pp rp seg)
  = if truthy pp then pp else AudioSegment.preview_path seg.
Proof.
  unfold ProcessingJob.update_segment. by destruct (truthy pp), (truthy rp).
Qed.

(** C5, as stated, fails: a segment whose source file does not exist
    yields no audio at all, and is marked Completed, with no result
    path. *)
Lemma unusable_segment_marked_completed :
  let out :=
    AudioPipelineProcessor.process_segments "audio_temp" no_files_env "job-1"
      default_config 5 [(0, segment_at 0 30 "in/seg0.wav")] running_job [] in
  final_audio_usable "audio_temp" no_files_env "job-1" default_config 0
    (segment_at 0 30 "in/seg0.wav") = false
  ∧ map SegmentResult.output_path (loop_results out) = [None]
  ∧ segment_statuses "job-1" out.1
    = [COMPLETED; QUEUED; QUEUED; QUEUED; QUEUED]
  ∧ map AudioSegment.result_path (job_segments "job-1" out.1)
    = [None; None; None; None; None].
Proof. vm_compute. done. Qed.

(** C5, amended: whenever the processing of a segment returns, the
    orchestrator marks the segment Completed, whether or not a usable
    final audio exists; the result and preview paths are set to the
    converted final file when the final audio is named and exists, and
    are left as they were otherwise.  The orchestrator never marks a
    segment Failed: when the conversion raises, the loop ends and the
    segment is left Running. *)
Theorem processed_segment_marked_completed temp_dir env job_id config total
    idx sd m j seg acc :
  JobManager.get_job job_id m = Some j →
  ProcessingJob.segments j !! idx = Some seg →
  let out :=
    AudioPipelineProcessor.process_segments temp_dir env job_id config total
      [(idx, sd)] m acc in
  match AudioPipelineProcessor._process_segment temp_dir env job_id idx sd
          config with
  | Ok r =>
      ∃ seg',
        out.2 = Ok (acc ++ [r])
        ∧ job_segments job_id out.1 !! idx = Some seg'
        ∧ AudioSegment.status seg' = COMPLETED
        ∧ if final_audio_usable temp_dir env job_id config idx sd
          then AudioSegment.result_path seg'
               = Some (AudioPipelineProcessor.segment_file temp_dir job_id idx
                         "final")
               ∧ AudioSegment.preview_path seg' = AudioSegment.result_path seg'
          else SegmentResult.output_path r = None
               ∧ AudioSegment.result_path seg' = AudioSegment.result_path seg
               ∧ AudioSegment.preview_path seg' = AudioSegment.preview_path seg
  | Raise e =>
      out.2 = Raise e
      ∧ AudioSegment.status <$> job_segments job_id out.1 !! idx = Some RUNNING
  end.
Proof.
  intros Hj Hseg out. subst out.
  destruct (process_segments_turn temp_dir env job_id config total idx sd []
              m acc j Hj)
    as (m_run & j_run & Hj_run & _ & _ & _ & Hseg_run & Hturn).
  destruct (final_audio_usable temp_dir env job_id config idx sd) eqn:Hu.
  - pose proof (_process_segment_usable temp_dir env job_id config idx sd Hu)
      as Hps.
    destruct (convert_audio env idx) as [[]|e].
    + destruct Hps as (r & Hr & Hout & Hprev). rewrite Hr in Hturn |- *.
      destruct Hturn as (m_done & j_done & Hj_done & _ & _ & Hsegs & ->).
      simpl. unfold job_segments. rewrite Hj_done, Hsegs, Hseg_run.
      rewrite !list_lookup_alter_eq, Hseg. simpl.
      eexists. split; [done|]. split; [done|].
      rewrite status_update_segment, result_path_update_segment,
        preview_path_update_segment, Hprev, Hout, truthy_segment_file.
      done.
    + rewrite Hps in Hturn |- *. rewrite Hturn.
      split; [done|]. cbn [fst].
      unfold job_segments. rewrite Hj_run, Hseg_run.
      rewrite list_lookup_alter_eq, Hseg. cbn [fmap option_fmap option_map].
      by rewrite status_update_segment.
  - destruct (_process_segment_unusable temp_dir env job_id config idx sd Hu)
      as (r & Hr & Hout & Hprev).
    rewrite Hr in Hturn |- *.
    destruct Hturn as (m_done & j_done & Hj_done & _ & _ & Hsegs & ->).
    simpl. unfold job_segments. rewrite Hj_done, Hsegs, Hseg_run.
    rewrite !list_lookup_alter_eq, Hseg. simpl.
    eexists. split; [done|]. split; [done|].
    rewrite status_update_segment, !result_path_update_segment,
      !preview_path_update_segment, Hprev, Hout.
    done.
Qed.

Lemma processed_segment_marked_completed_witness :
  let out :=
    AudioPipelineProcessor.process_segments "audio_temp" no_files_env "job-1"
      default_config 5 [(0, segment_at 0 30 "in/seg0.wav")] running_job [] in
  ∃ seg',
    job_segments "job-1" out.1 !! 0 = Some seg'
    ∧ AudioSegment.status seg' = COMPLETED
    ∧ AudioSegment.result_path seg' = None.
Proof.
  intros out.
  destruct (JobManager.get_job "job-1" running_job) as [j|] eqn:Hj;
    [|vm_compute in Hj; discriminate].
  destruct (ProcessingJob.segments j !! 0) as [seg|] eqn:Hseg;
    [|vm_compute in Hj; injection Hj as <-; discriminate].
  pose proof (processed_segment_marked_completed "audio_temp" no_files_env
                "job-1" default_config 5 0 (segment_at 0 30 "in/seg0.wav")
                running_job j seg [] Hj Hseg) as H.
  simpl in H.
  destruct H as (seg' & _ & Hget & Hs & _ & Hr & _).
  exists seg'. split; [exact Hget|]. split; [exact Hs|].
  rewrite Hr. vm_compute in Hj. injection Hj as <-.
  vm_compute in Hseg. by injection Hseg as <-.
Defined.

(** ** Cancellation while the pipeline runs (C3) *)




(** ** Combining with no valid segment (C8) *)

Lemma get_job_update_job_status_job m id j s msg p :
  JobManager.get_job id m = Some j →
  ∃ j', JobManager.get_job id (JobManager.update_job_status id s msg p m)
        = Some j'
        ∧ ProcessingJob.status j' = s
        ∧ ProcessingJob.results j' = ProcessingJob.results j
        ∧ ProcessingJob.segments j' = ProcessingJob.segments j.
Proof.
  intros Hj. unfold JobManager.update_job_status. rewrite Hj.
  eexists. split; [apply get_job_stored|]. by destruct p.
Qed.

Lemma elem_of_enumerate {A} (l : list A) i x :
  (i, x) ∈ enumerate l → l !! i = Some x.
Proof.
  intros H. apply elem_of_lookup_imap_1 in H as (i' & y & [= -> ->] & H).
  exact H.
Qed.

Lemma valid_segments_nil rs :
  Forall (λ r, SegmentResult.output_path r = None) rs →
  AudioPipelineProcessor.valid_segments rs = [].
Proof.
  unfold AudioPipelineProcessor.valid_segments.
  induction 1 as [|r rs Hr _ IH]; [done|]. simpl. by rewrite Hr.
Qed.

Lemma fail_after_no_valid_segments temp_dir env job_id config m1 j1 rs :
  JobManager.get_job job_id m1 = Some j1 →
  AudioPipelineProcessor.valid_segments rs = [] →
  AudioPipelineProcessor._combine_segments temp_dir env rs config job_id
  = Raise (ValueError "No valid segments to combine")
  ∧ (AudioPipelineProcessor.combine_and_finish temp_dir env job_id config m1
       rs).2
    = Raise (ValueError "No valid segments to combine")
  ∧ ∃ j',
      JobManager.get_job job_id
        (finish_job env job_id
           (AudioPipelineProcessor.combine_and_finish temp_dir env job_id
              config m1 rs)) = Some j'
      ∧ ProcessingJob.status j' = FAILED
      ∧ ProcessingJob.message j' = "Job failed: No valid segments to combine"
      ∧ ProcessingJob.results j' = ProcessingJob.results j1.
Proof.
  intros Hj1 Hvalid.
  assert (AudioPipelineProcessor._combine_segments temp_dir env rs config
            job_id = Raise (ValueError "No valid segments to combine"))
    as Hcombine.
  { unfold AudioPipelineProcessor._combine_segments. by rewrite Hvalid. }
  split; [exact Hcombine|].
  unfold AudioPipelineProcessor.combine_and_finish. rewrite Hcombine.
  split; [done|]. cbn [finish_job].
  edestruct get_job_fail_job as (j' & Hj' & Hs & Hmsg & Hres & _).
  { by apply get_job_update_job_progress. }
  exists j'. split; [exact Hj'|]. split; [exact Hs|]. split; [exact Hmsg|].
  by rewrite Hres.
Qed.

(** C8: when the loop of the pipeline hands the combiner a list of
    segment results that is empty once filtered to those with an output
    path, the combiner raises its "No valid segments to combine" error,
    [process] raises it in turn, and [process_job] leaves the job Failed
    with that message and with its results as they were before the run
    (no output path is recorded). *)
Theorem no_valid_segments_fails_job temp_dir env job_id config segments m j
    m1 rs :
  JobManager.get_job job_id m = Some j →
  AudioPipelineProcessor.process_segments temp_dir env job_id config
    (length segments) (enumerate segments)
    (JobManager.update_job_status job_id RUNNING "Starting pipeline" None m)
    [] = (m1, Ok rs) →
  AudioPipelineProcessor.valid_segments rs = [] →
  AudioPipelineProcessor._combine_segments temp_dir env rs config job_id
  = Raise (ValueError "No valid segments to combine")
  ∧ (AudioPipelineProcessor.process temp_dir env job_id config segments
       (JobManager.update_job_status job_id RUNNING "Starting pipeline" None
          m)).2
    = Raise (ValueError "No valid segments to combine")
  ∧ ∃ j',
      JobManager.get_job job_id
        (process_job temp_dir env job_id config segments m) = Some j'
      ∧ ProcessingJob.status j' = FAILED
      ∧ ProcessingJob.message j' = "Job failed: No valid segments to combine"
      ∧ ProcessingJob.results j' = ProcessingJob.results j.
Proof.
  intros Hj Hrun Hvalid.
  destruct (get_job_update_job_status_job m job_id j RUNNING
              "Starting pipeline" None Hj) as (j0 & Hj0 & _ & Hres0 & _).
  destruct (process_segments_keeps_job temp_dir env job_id config
              (length segments) (enumerate segments) _ [] j0 Hj0)
    as (j1 & Hj1 & _ & Hres1).
  rewrite Hrun in Hj1. cbn [fst] in Hj1.
  destruct (fail_after_no_valid_segments temp_dir env job_id config m1 j1 rs
              Hj1 Hvalid) as (Hcombine & Hraise & j' & Hj' & Hrest).
  split; [exact Hcombine|].
  unfold process_job, AudioPipelineProcessor.process. rewrite Hrun.
  split; [exact Hraise|].
  exists j'. split; [exact Hj'|].
  destruct Hrest as (? & ? & ?). repeat split; congruence.
Qed.

Lemma no_valid_segments_fails_job_witness :
  ∃ j',
    JobManager.get_job "job-1"
      (process_job "audio_temp" no_files_env "job-1" default_config
         five_segments one_job) = Some j'
    ∧ ProcessingJob.status j' = FAILED
    ∧ ProcessingJob.message j' = "Job failed: No valid segments to combine"
    ∧ ProcessingJob.results j' = None.
Proof.
  destruct (JobManager.get_job "job-1" one_job) as [j|] eqn:Hj;
    [|vm_compute in Hj; discriminate].
  destruct (AudioPipelineProcessor.process_segments "audio_temp" no_files_env
              "job-1" default_config (length five_segments)
              (enumerate five_segments)
              (JobManager.update_job_status "job-1" RUNNING
                 "Starting pipeline" None one_job) [])
    as [m1 [rs|e]] eqn:Hrun; [|vm_compute in Hrun; discriminate].
  assert (AudioPipelineProcessor.valid_segments rs = []) as Hvalid.
  { vm_compute in Hrun. by injection Hrun as _ <-. }
  destruct (no_valid_segments_fails_job "audio_temp" no_files_env "job-1"
              default_config five_segments one_job j m1 rs Hj Hrun Hvalid)
    as (_ & _ & j' & Hj' & Hs & Hmsg & Hres).
  exists j'. split; [exact Hj'|]. split; [exact Hs|]. split; [exact Hmsg|].
  rewrite Hres. vm_compute in Hj. by injection Hj as <-.
Defined.

(** The hypothesis of the theorem holds whenever no segment yields a
    usable final audio: the loop then runs to its end, since nothing is
    converted, and every result lacks an output path. *)
Lemma unusable_segments_reach_combiner temp_dir env job_id config segments m j :
  JobManager.get_job job_id m = Some j →
  (∀ i sd, segments !! i = Some sd →
           final_audio_usable temp_dir env job_id config i sd = false) →
  ∃ m1 rs,
    AudioPipelineProcessor.process_segments temp_dir env job_id config
      (length segments) (enumerate segments) m [] = (m1, Ok rs)
    ∧ length rs = length segments
    ∧ AudioPipelineProcessor.valid_segments rs = [].
Proof.
  intros Hj Hunusable.
  destruct (process_segments_returns temp_dir env job_id config
              (length segments) (enumerate segments) m [] j Hj)
    as (m1 & j1 & rs & Hrun & Hrs & _).
  { apply Forall_forall. intros [i sd] Hin.
    apply elem_of_enumerate in Hin.
    destruct (_process_segment_unusable temp_dir env job_id config i sd
                (Hunusable i sd Hin)) as (r & Hr & _).
    by exists r. }
  exists m1, rs. split; [exact Hrun|].
  split; [by rewrite <- (Forall2_length _ _ _ Hrs), length_enumerate|].
  apply valid_segments_nil, Forall_forall. intros r Hr.
  apply list_elem_of_lookup in Hr as [k Hk].
  destruct (Forall2_lookup_r _ _ _ _ _ Hrs Hk) as ([i sd] & Hitem & Hps).
  apply list_elem_of_lookup_2, elem_of_enumerate in Hitem.
  destruct (_process_segment_unusable temp_dir env job_id config i sd
              (Hunusable i sd Hitem)) as (r' & Hr' & Hout & _).
  simpl in Hps. congruence.
Qed.

(** * Further properties of the job manager *)

(** ** More on dictionaries *)

Section dict_more.
Context {V : Type}.
Implicit Types (d : PyDict.t V) (k : string) (v : V).

Lemma dict_get_None d k : PyDict.get k d = None ↔ k ∉ d.*1.
Proof.
  induction d as [|[k' v'] d IH]; simpl.
  - split; [intros _; apply not_elem_of_nil|done].
  - rewrite not_elem_of_cons. destruct (String.eqb k k') eqn:E.
    + apply String.eqb_eq in E. split; [done|]. by intros [? _].
    + apply String.eqb_neq in E. rewrite IH. tauto.
Qed.

Lemma dict_get_Some_elem d k v : PyDict.get k d = Some v → (k, v) ∈ d.
Proof.
  induction d as [|[k' v'] d IH]; simpl; [done|].
  destruct (String.eqb k k') eqn:E.
  - apply String.eqb_eq in E as ->. intros [= ->]. by left.
  - intros H. right. auto.
Qed.


Lemma dict_keys_set d k v : ∀ x, x ∈ (PyDict.set k v d).*1 ↔ x = k ∨ x ∈ d.*1.
Proof.
  intros x. induction d as [|[k' v'] d IH]; simpl.
  - rewrite list_elem_of_singleton. split; [auto|].
    intros [?|H]; [done|]. by apply elem_of_nil in H.
  - destruct (String.eqb k k') eqn:E; simpl.
    + apply String.eqb_eq in E as <-. rewrite !elem_of_cons. tauto.
    + rewrite !elem_of_cons, IH. tauto.
Qed.

Lemma dict_NoDup_set d k v : NoDup d.*1 → NoDup (PyDict.set k v d).*1.
Proof.
  induction d as [|[k' v'] d IH]; simpl; intros Hnd.
  - apply NoDup_singleton.
  - apply NoDup_cons in Hnd as [Hk' Hnd].
    destruct (String.eqb k k') eqn:E; simpl.
    + apply String.eqb_eq in E as <-. by apply NoDup_cons.
    + apply NoDup_cons. split; [|auto].
      rewrite dict_keys_set. intros [->|?]; [|done].
      by rewrite String.eqb_refl in E.
Qed.

Lemma dict_keys_del d k : ∀ x, x ∈ (PyDict.del k d).*1 → x ∈ d.*1.
Proof.
  intros x. induction d as [|[k' v'] d IH]; simpl; [done|].
  destruct (String.eqb k k'); simpl; rewrite !elem_of_cons; auto.
  intros [?|?]; auto.
Qed.

Lemma dict_NoDup_del d k : NoDup d.*1 → NoDup (PyDict.del k d).*1.
Proof.
  induction d as [|[k' v'] d IH]; simpl; intros Hnd; [done|].
  apply NoDup_cons in Hnd as [Hk' Hnd].
  destruct (String.eqb k k'); simpl; [done|].
  apply NoDup_cons. split; [|auto].
  intros H. by apply dict_keys_del in H.
Qed.

Lemma dict_get_del_eq d k : NoDup d.*1 → PyDict.get k (PyDict.del k d) = None.
Proof.
  induction d as [|[k' v'] d IH]; simpl; intros Hnd; [done|].
  apply NoDup_cons in Hnd as [Hk' Hnd].
  destruct (String.eqb k k') eqn:E; simpl.
  - apply String.eqb_eq in E as <-. by apply dict_get_None.
  - rewrite E. auto.
Qed.

Lemma dict_get_del_ne d k k' :
  k ≠ k' → PyDict.get k' (PyDict.del k d) = PyDict.get k' d.
Proof.
  intros Hne. induction d as [|[k0 v0] d IH]; simpl; [done|].
  destruct (String.eqb k k0) eqn:E; simpl.
  - apply String.eqb_eq in E as <-.
    assert (String.eqb k' k = false) as ->; [|done].
    apply String.eqb_neq. congruence.
  - by rewrite IH.
Qed.

End dict_more.

Lemma string_length_append s t :
  String.length (s +:+ t) = String.length s + String.length t.
Proof. induction s as [|c s IH]; simpl; [done|]. by rewrite IH. Qed.

Lemma string_append_inj_r t s s' : s +:+ t = s' +:+ t → s = s'.
Proof.
  revert s'. induction s as [|c s IH]; intros [|c' s'] H.
  - done.
  - apply (f_equal String.length) in H.
    rewrite !string_length_append in H. cbn [String.length] in H. lia.
  - apply (f_equal String.length) in H.
    rewrite !string_length_append in H. cbn [String.length] in H. lia.
  - injection H as -> H. f_equal. auto.
Qed.

Lemma metadata_file_inj id id' :
  JobManager.metadata_file id = JobManager.metadata_file id' → id = id'.
Proof. apply string_append_inj_r. Qed.

(** ** The snapshot on disk *)

Lemma snapshots_agree_stored m id j' :
  snapshots_agree m →
  ProcessingJob.job_id j' = id →
  snapshots_agree
    (JobManager._save_job_metadata j' (JobManager.write_job id j' m)).
Proof.
  intros (Hnd & Hjobs & Hfiles) Hid. split; [|split].
  - by apply dict_NoDup_set.
  - intros id0 j0. rewrite get_job_save.
    unfold JobManager.load_job_metadata. cbn [JobManager._save_job_metadata
      JobManager.storage JobManager.write_job].
    rewrite Hid. destruct (decide (id = id0)) as [<-|Hne].
    + rewrite get_job_write. intros [= <-].
      by rewrite lookup_insert_eq.
    + rewrite get_job_write_ne by done. intros Hj0.
      destruct (Hjobs id0 j0 Hj0) as [Hid0 Hload]. split; [done|].
      rewrite lookup_insert_ne; [done|].
      intros Heq. by apply metadata_file_inj in Heq.
  - intros f d. cbn [JobManager._save_job_metadata JobManager.storage
      JobManager.write_job]. rewrite Hid.
    destruct (decide (JobManager.metadata_file id = f)) as [<-|Hne].
    + intros _. exists id. split; [done|].
      rewrite get_job_save, get_job_write. by eexists.
    + rewrite lookup_insert_ne by done. intros Hf.
      destruct (Hfiles f d Hf) as (id0 & -> & Hsome).
      exists id0. split; [done|]. rewrite get_job_save.
      destruct (decide (id = id0)) as [<-|Hne'].
      * rewrite get_job_write. by eexists.
      * by rewrite get_job_write_ne.
Qed.

Lemma snapshots_agree_deleted m id :
  snapshots_agree m → snapshots_agree (JobManager.delete_job id m).2.
Proof.
  intros (Hnd & Hjobs & Hfiles). unfold JobManager.delete_job.
  destruct (PyDict.get id (JobManager.jobs m)) as [j|] eqn:Hj; [|done].
  cbn [snd]. split; [|split].
  - by apply dict_NoDup_del.
  - intros id0 j0. unfold JobManager.get_job, JobManager.load_job_metadata.
    cbn [JobManager.jobs JobManager.storage].
    destruct (decide (id = id0)) as [<-|Hne].
    + by rewrite dict_get_del_eq.
    + rewrite dict_get_del_ne by done. intros Hj0.
      destruct (Hjobs id0 j0 Hj0) as [Hid0 Hload]. split; [done|].
      rewrite lookup_delete_ne; [done|].
      intros Heq. by apply metadata_file_inj in Heq.
  - intros f d. cbn [JobManager.storage].
    destruct (decide (JobManager.metadata_file id = f)) as [<-|Hne].
    + by rewrite lookup_delete_eq.
    + rewrite lookup_delete_ne by done. intros Hf.
      destruct (Hfiles f d Hf) as (id0 & -> & Hsome).
      exists id0. split; [done|]. unfold JobManager.get_job.
      cbn [JobManager.jobs]. rewrite dict_get_del_ne; [done|].
      by intros ->.
Qed.

(** An operation that looks the job up and stores it back under its own
    id. *)
Ltac on_own_id op IH :=
  unfold op;
  lazymatch goal with
  | |- context [JobManager.get_job ?id ?m] =>
      let j := fresh "j" in
      let Hj := fresh "Hj" in
      let Hid := fresh "Hid" in
      destruct (JobManager.get_job id m) as [j|] eqn:Hj; [|exact IH];
      pose proof (proj1 (proj1 (proj2 IH) _ _ Hj)) as Hid
  end.

Lemma job_id_update_segment_status i s pp rp now j :
  ProcessingJob.job_id (ProcessingJob.update_segment_status i s pp rp now j)
  = ProcessingJob.job_id j.
Proof.
  unfold ProcessingJob.update_segment_status. by destruct (_ && _).
Qed.

Lemma reachable_snapshots_agree m : reachable m → snapshots_agree m.
Proof.
  induction 1 as [ |m id t1 t2 cfg segs _ IH|m id s msg p _ IH
                 |m id p st msg now _ IH|m id i s pp rp now _ IH
                 |m id r now _ IH|m id e now _ IH|m id now _ IH|m id _ IH].
  - split; [constructor|]. split; [done|].
    intros f d Hf. cbn [JobManager.init JobManager.storage] in Hf.
    by rewrite lookup_empty in Hf.
  - by apply snapshots_agree_stored.
  - on_own_id JobManager.update_job_status IH.
    apply snapshots_agree_stored; [done|]. by destruct p.
  - on_own_id JobManager.update_job_progress IH.
    by apply snapshots_agree_stored.
  - on_own_id JobManager.update_segment_status IH.
    apply snapshots_agree_stored; [done|].
    by rewrite job_id_update_segment_status.
  - on_own_id JobManager.complete_job IH.
    by apply snapshots_agree_stored.
  - on_own_id JobManager.fail_job IH.
    by apply snapshots_agree_stored.
  - on_own_id JobManager.cancel_job IH.
    destruct (JobManager.cancellable _); [|exact IH].
    by apply snapshots_agree_stored.
  - by apply snapshots_agree_deleted.
Qed.



(** ** The shape of a job *)

Lemma fst_imap_from {A} (n : nat) (l : list A) :
  (imap (λ i a, (n + i, a)) l).*1 = seq n (length l).
Proof.
  revert n. induction l as [|x l IH]; intros n; [done|].
  cbn [imap fmap list_fmap length seq]. rewrite Nat.add_0_r. f_equal.
  rewrite <- (IH (S n)). f_equal. apply imap_ext. intros i y _.
  cbn. f_equal. lia.
Qed.

Lemma fst_enumerate {A} (l : list A) : (enumerate l).*1 = seq 0 (length l).
Proof. apply (fst_imap_from 0). Qed.

Lemma well_shaped_init job_id config segments t_created t_updated :
  well_shaped
    (ProcessingJob.init job_id config segments t_created t_updated).
Proof.
  unfold well_shaped, ProcessingJob.init.
  cbn [ProcessingJob.segments ProcessingJob.segments_total
         ProcessingJob.preview_url].
  rewrite length_map, length_enumerate. split; [done|]. split; [|split].
  - rewrite <- fst_enumerate, map_map. apply map_ext. by intros [i sd].
  - apply Forall_map, Forall_forall. by intros [i sd] _.
  - done.
Qed.

Lemma map_alter_same {A B} (f : A → B) (g : A → A) i (l : list A) :
  (∀ x, f (g x) = f x) → map f (alter g i l) = map f l.
Proof.
  intros Hg. revert i. induction l as [|x l IH]; intros [|i]; simpl; [done..| |].
  - by rewrite Hg.
  - f_equal. apply IH.
Qed.

Lemma well_shaped_update_segment_status i s pp rp now j :
  well_shaped j →
  well_shaped (ProcessingJob.update_segment_status i s pp rp now j).
Proof.
  intros (Htotal & Hidx & Hdur & Hprev).
  unfold ProcessingJob.update_segment_status.
  destruct (_ && _); [|done].
  unfold well_shaped.
  cbn [ProcessingJob.set_updated_at ProcessingJob.set_segments_completed
         ProcessingJob.set_segments ProcessingJob.segments
         ProcessingJob.segments_total ProcessingJob.preview_url].
  rewrite length_alter. split; [done|]. split; [|split; [|done]].
  - rewrite map_alter_same; [done|]. intros seg.
    unfold ProcessingJob.update_segment. by destruct (truthy pp), (truthy rp).
  - apply Forall_alter; [done|]. intros seg _ Hseg.
    unfold ProcessingJob.update_segment. by destruct (truthy pp), (truthy rp).
Qed.

Lemma reachable_well_shaped m :
  reachable m → Forall (λ kv, well_shaped kv.2) (JobManager.jobs m).
Proof.
  induction 1 as [ |m id t1 t2 cfg segs _ IH|m id s msg p _ IH
                 |m id p st msg now _ IH|m id i s pp rp now _ IH
                 |m id r now _ IH|m id e now _ IH|m id now _ IH|m id _ IH].
  - constructor.
  - apply dict_Forall_set; [apply well_shaped_init|done].
  - on_found_job JobManager.update_job_status IH.
    apply dict_Forall_set; [|done]. by destruct p.
  - on_found_job JobManager.update_job_progress IH.
    by apply dict_Forall_set.
  - on_found_job JobManager.update_segment_status IH.
    apply dict_Forall_set; [|done].
    by apply well_shaped_update_segment_status.
  - on_found_job JobManager.complete_job IH.
    by apply dict_Forall_set.
  - on_found_job JobManager.fail_job IH.
    by apply dict_Forall_set.
  - on_found_job JobManager.cancel_job IH.
    destruct (JobManager.cancellable _); [|exact IH].
    by apply dict_Forall_set.
  - unfold JobManager.delete_job.
    destruct (PyDict.get id (JobManager.jobs m)); [|done].
    by apply dict_Forall_del.
Qed.

Lemma length_filter_le {A} (f : A → bool) (l : list A) :
  length (List.filter f l) ≤ length l.
Proof.
  induction l as [|x l IH]; simpl; [done|]. destruct (f x); simpl; lia.
Qed.

(** In every state the operations of the manager can produce, a held
    job is filed under its own id, [segments_total] is the number of its
    segments, the segment at position [i] has index [i] and the duration
    it was created with, the counter of finished segments does not
    exceed the total, and no preview URL is set. *)
Theorem reachable_job_shape m job_id j :
  reachable m →
  JobManager.get_job job_id m = Some j →
  ProcessingJob.job_id j = job_id
  ∧ ProcessingJob.segments_total j = length (ProcessingJob.segments j)
  ∧ ProcessingJob.segments_completed j ≤ ProcessingJob.segments_total j
  ∧ (∀ i seg, ProcessingJob.segments j !! i = Some seg →
              AudioSegment.index seg = i
              ∧ AudioSegment.duration seg
                = (AudioSegment.end_time seg - AudioSegment.start_time seg)%Q)
  ∧ ProcessingJob.preview_url j = None.
Proof.
  intros Hm Hj.
  destruct (reachable_snapshots_agree m Hm) as (_ & Hjobs & _).
  destruct (Hjobs job_id j Hj) as [Hid _].
  pose proof (dict_Forall_get _ _ _ _ (reachable_well_shaped m Hm) Hj)
    as (Htotal & Hidx & Hdur & Hprev).
  pose proof (dict_Forall_get _ _ _ _ (reachable_counters_agree m Hm) Hj)
    as Hcount.
  split; [done|]. split; [done|]. split; [|split; [|done]].
  - rewrite Hcount, Htotal. apply length_filter_le.
  - intros i seg Hseg. split.
    + assert (map AudioSegment.index (ProcessingJob.segments j) !! i = Some i)
        as Hi.
      { rewrite Hidx. apply lookup_seq. split; [done|].
        by apply lookup_lt_Some in Hseg. }
      rewrite list_lookup_fmap, Hseg in Hi. by injection Hi.
    + rewrite Forall_forall in Hdur. apply Hdur.
      by apply list_elem_of_lookup_2 in Hseg.
Qed.

Lemma reachable_job_shape_witness :
  let m :=
    JobManager.update_segment_status "job-1" 4 RUNNING None None 1001 one_job in
  ∃ j, JobManager.get_job "job-1" m = Some j
       ∧ ProcessingJob.segments_total j = 5
       ∧ length (ProcessingJob.segments j) = 5
       ∧ ProcessingJob.segments_completed j ≤ 5.
Proof.
  intros m.
  assert (reachable m) as Hm.
  { apply reach_update_segment_status.
    apply (reach_create_job JobManager.init). apply reach_init. }
  destruct (JobManager.get_job "job-1" m) as [j|] eqn:Hj;
    [|vm_compute in Hj; discriminate].
  destruct (reachable_job_shape m "job-1" j Hm Hj)
    as (_ & Htotal & Hle & _).
  exists j. split; [done|].
  assert (ProcessingJob.segments_total j = 5) as H5.
  { vm_compute in Hj. by injection Hj as <-. }
  split; [done|]. split; [congruence|]. by rewrite <- H5.
Defined.

(** ** Segment indices out of range *)

Lemma dict_set_same {V} (d : PyDict.t V) k v :
  PyDict.get k d = Some v → PyDict.set k v d = d.
Proof.
  induction d as [|[k' v'] d IH]; simpl; [done|].
  destruct (String.eqb k k') eqn:E.
  - apply String.eqb_eq in E as ->. by intros [= ->].
  - intros H. by rewrite IH.
Qed.

(** [update_segment_status] with an index below zero or past the last
    segment leaves the job exactly as it was: no segment changes (a
    negative index does not count from the end), the counter and
    [updated_at] stay, and nothing is raised. *)
Theorem update_segment_status_out_of_range m job_id j i s pp rp now :
  JobManager.get_job job_id m = Some j →
  (i < 0 ∨ Z.of_nat (length (ProcessingJob.segments j)) ≤ i)%Z →
  JobManager.get_job job_id
    (JobManager.update_segment_status job_id i s pp rp now m) = Some j
  ∧ JobManager.jobs (JobManager.update_segment_status job_id i s pp rp now m)
    = JobManager.jobs m.
Proof.
  intros Hj Hi. unfold JobManager.update_segment_status. rewrite Hj.
  assert (ProcessingJob.update_segment_status i s pp rp now j = j) as ->.
  { unfold ProcessingJob.update_segment_status.
    destruct (_ && _) eqn:E; [|done].
    apply andb_prop in E as [E1 E2]. lia. }
  split; [apply get_job_stored|]. by apply dict_set_same.
Qed.

Lemma update_segment_status_out_of_range_witness :
  segment_statuses "job-1"
    (JobManager.update_segment_status "job-1" (-1) FAILED None None 1001
       one_job)
  = [QUEUED; QUEUED; QUEUED; QUEUED; QUEUED]
  ∧ segment_statuses "job-1"
      (JobManager.update_segment_status "job-1" 5 FAILED None None 1001
         one_job)
    = [QUEUED; QUEUED; QUEUED; QUEUED; QUEUED].
Proof.
  destruct (JobManager.get_job "job-1" one_job) as [j|] eqn:Hj;
    [|vm_compute in Hj; discriminate].
  assert (length (ProcessingJob.segments j) = 5) as Hlen.
  { vm_compute in Hj. by injection Hj as <-. }
  assert (map AudioSegment.status (ProcessingJob.segments j)
          = [QUEUED; QUEUED; QUEUED; QUEUED; QUEUED]) as Hst.
  { vm_compute in Hj. by injection Hj as <-. }
  unfold segment_statuses, job_segments. split.
  - destruct (update_segment_status_out_of_range one_job "job-1" j (-1)
                FAILED None None 1001 Hj) as [-> _]; [lia|done].
  - destruct (update_segment_status_out_of_range one_job "job-1" j 5
                FAILED None None 1001 Hj) as [-> _]; [lia|done].
Defined.

(** ** Cancelling and deleting *)

(** [cancel_job] succeeds exactly on a held job that is Queued or
    Running; when it fails the manager is unchanged; and once it has been
    tried, a second [cancel_job] on the same job always fails. *)
Theorem cancel_job_succeeds_once m job_id now :
  ((JobManager.cancel_job job_id now m).1 = true
   ↔ ∃ j, JobManager.get_job job_id m = Some j
          ∧ (ProcessingJob.status j = QUEUED ∨ ProcessingJob.status j = RUNNING))
  ∧ ((JobManager.cancel_job job_id now m).1 = false →
     (JobManager.cancel_job job_id now m).2 = m)
  ∧ (∀ now',
       (JobManager.cancel_job job_id now'
          (JobManager.cancel_job job_id now m).2).1 = false).
Proof.
  unfold JobManager.cancel_job at 1 2 3 5.
  destruct (JobManager.get_job job_id m) as [j|] eqn:Hj.
  - destruct (JobManager.cancellable (ProcessingJob.status j)) eqn:Hc;
      cbn [fst snd].
    + split; [|split; [done|]].
      * split; [intros _|done]. exists j. split; [done|].
        by destruct (ProcessingJob.status j); auto.
      * intros now'. unfold JobManager.cancel_job.
        by rewrite get_job_stored.
    + split; [|split; [done|]].
      * split; [done|]. intros (j' & [= <-] & [Hs|Hs]);
          by rewrite Hs in Hc.
      * intros now'. unfold JobManager.cancel_job. by rewrite Hj, Hc.
  - cbn [fst snd]. split; [|split; [done|]].
    + split; [done|]. by intros (j' & ? & _).
    + intros now'. unfold JobManager.cancel_job. by rewrite Hj.
Qed.




(** ** Listing with a filter *)

Lemma JobStatus_of_value_value s : JobStatus_of_value (JobStatus_value s) = Ok s.
Proof. by destruct s. Qed.

Lemma JobStatus_eqb_eq a b : JobStatus_eqb a b = true ↔ a = b.
Proof. destruct a, b; simpl; split; congruence. Qed.

(** When [status_filter] names a status, in any letter case, [list_jobs]
    returns the jobs of that status and only those: newest first, cut to
    the limit, and all of them when the limit is at least the number of
    jobs held. *)
Theorem list_jobs_selects_status m limit f s :
  f ≠ "" →
  JobStatus_value s = lower f →
  JobManager.list_jobs limit (Some f) m
  = map ProcessingJob.to_dict
      (slice_to limit
         (JobManager.sort_newest_first
            (List.filter (λ j, JobStatus_eqb (ProcessingJob.status j) s)
               (PyDict.values (JobManager.jobs m)))))
  ∧ Forall (λ d, ProcessingJob.d_status d = JobStatus_value s)
           (JobManager.list_jobs limit (Some f) m)
  ∧ ((Z.of_nat (length (JobManager.jobs m)) ≤ limit)%Z →
     ∀ k j, (k, j) ∈ JobManager.jobs m → ProcessingJob.status j = s →
            ProcessingJob.to_dict j ∈ JobManager.list_jobs limit (Some f) m).
Proof.
  intros Hf Hs.
  set (selected := List.filter
                     (λ j, JobStatus_eqb (ProcessingJob.status j) s)
                     (PyDict.values (JobManager.jobs m))).
  assert (JobManager.list_jobs limit (Some f) m
          = map ProcessingJob.to_dict
              (slice_to limit (JobManager.sort_newest_first selected)))
    as Heq.
  { unfold JobManager.list_jobs, JobManager.apply_status_filter.
    assert (truthy (Some f) = true) as ->.
    { unfold truthy. apply negb_true_iff. by apply String.eqb_neq. }
    by rewrite <- Hs, JobStatus_of_value_value. }
  split; [exact Heq|]. split.
  - rewrite Heq. apply Forall_map, Forall_forall. intros j Hj.
    assert (j ∈ selected) as Hsel.
    { rewrite <- (sort_newest_first_perm selected).
      unfold slice_to in Hj.
      destruct (0 <=? limit)%Z;
        apply elem_of_take in Hj as (i & Hi & _);
        by apply list_elem_of_lookup_2 in Hi. }
    apply list_elem_of_In, filter_In in Hsel as [_ Hst].
    apply JobStatus_eqb_eq in Hst. cbn. by rewrite Hst.
  - intros Hlimit k j Hkj Hst. rewrite Heq.
    apply list_elem_of_fmap_2.
    assert (slice_to limit (JobManager.sort_newest_first selected)
            = JobManager.sort_newest_first selected) as ->.
    { unfold slice_to.
      assert ((0 <=? limit)%Z = true) as -> by lia.
      apply take_ge.
      rewrite (Permutation_length (sort_newest_first_perm selected)).
      pose proof (length_filter_le
                    (λ j, JobStatus_eqb (ProcessingJob.status j) s)
                    (PyDict.values (JobManager.jobs m))) as Hle.
      unfold PyDict.values in Hle. rewrite length_map in Hle.
      fold (PyDict.values (JobManager.jobs m)) in Hle. fold selected in Hle.
      lia. }
    rewrite sort_newest_first_perm.
    apply list_elem_of_In, filter_In. split.
    + apply list_elem_of_In.
      by apply (list_elem_of_fmap_2 snd) in Hkj.
    + by apply JobStatus_eqb_eq.
Qed.

Lemma list_jobs_selects_status_witness :
  map ProcessingJob.d_job_id
      (JobManager.list_jobs 50 (Some "Queued") three_jobs)
  = ["job-2"; "job-1"]
  ∧ Forall (λ d, ProcessingJob.d_status d = "queued")
           (JobManager.list_jobs 50 (Some "Queued") three_jobs).
Proof.
  assert ("Queued" ≠ "") as Hf by discriminate.
  destruct (list_jobs_selects_status three_jobs 50 "Queued" QUEUED Hf
              eq_refl) as (Heq & Hall & _).
  split; [|exact Hall]. rewrite Heq. reflexivity.
Defined.

(** The sort of [list_jobs] is stable: the jobs created at one instant
    come out in the order the manager holds them. *)
Theorem sort_newest_first_stable l t :
  List.filter (λ j, (ProcessingJob.created_at j =? t)%Z)
              (JobManager.sort_newest_first l)
  = List.filter (λ j, (ProcessingJob.created_at j =? t)%Z) l.
Proof.
  induction l as [|j l IH]; [done|].
  cbn [JobManager.sort_newest_first foldr].
  fold (JobManager.sort_newest_first l).
  transitivity
    (List.filter (λ j, (ProcessingJob.created_at j =? t)%Z)
                 (j :: JobManager.sort_newest_first l));
    [|cbn [List.filter]; by rewrite IH].
  generalize (JobManager.sort_newest_first l). clear IH. intros sorted.
  induction sorted as [|j' sorted IH]; [done|].
  cbn [JobManager.insert_newest_first].
  destruct (ProcessingJob.created_at j <? ProcessingJob.created_at j')%Z
    eqn:E; [|done].
  cbn [List.filter]. rewrite IH. cbn [List.filter].
  destruct (ProcessingJob.created_at j =? t)%Z eqn:Ej;
    destruct (ProcessingJob.created_at j' =? t)%Z eqn:Ej'; try done.
  lia.
Qed.

(** * Further properties of the configuration *)

(** The validator of [pipeline_stages] returns the list unchanged when
    every name is in the registry (the empty list and repeated names
    included); otherwise its [ValueError] names the first unknown stage
    of the list. *)
Theorem validate_pipeline_stages_first_unknown v :
  match validate_pipeline_stages v with
  | Ok v' => v' = v ∧ Forall (λ stage, stage ∈ valid_stages) v
  | Raise e =>
      ∃ before stage after,
        v = before ++ stage :: after
        ∧ Forall (λ stage, stage ∈ valid_stages) before
        ∧ (stage ∉ valid_stages)
        ∧ e = ValueError ("Invalid pipeline stage: " +:+ stage)
  end.
Proof.
  assert (∀ stage, str_in stage valid_stages = true ↔ stage ∈ valid_stages)
    as Hin.
  { intros stage. unfold str_in. rewrite existsb_exists. split.
    - intros (x & Hx & E). apply String.eqb_eq in E as ->.
      by apply list_elem_of_In.
    - intros H. exists stage. split; [by apply list_elem_of_In|].
      apply String.eqb_refl. }
  unfold validate_pipeline_stages.
  induction v as [|stage v IH]; [by split|].
  cbn [validate_pipeline_stages_loop].
  destruct (str_in stage valid_stages) eqn:E; cbn [negb].
  - apply Hin in E.
    destruct (validate_pipeline_stages_loop v) as [[]|e]; cbn [bind] in *.
    + destruct IH as [_ IH]. split; [done|]. by constructor.
    + destruct IH as (before & bad & after & -> & Hbefore & Hbad & ->).
      exists (stage :: before), bad, after. repeat split; [|done].
      by constructor.
  - cbn [bind]. exists [], stage, v. repeat split; [constructor|].
    intros H. apply Hin in H. congruence.
Qed.

(** * Further properties of the stages of a segment *)

Section stage_more.
Variable temp_dir : string.
Variable env : Env.

Abbreviation _process_with' := (AudioPipelineProcessor._process_with temp_dir).
Abbreviation run_stage' := (AudioPipelineProcessor.run_stage temp_dir env).
Abbreviation run_stages' := (AudioPipelineProcessor.run_stages temp_dir env).
Abbreviation segment_file' := (AudioPipelineProcessor.segment_file temp_dir).

(** A helper hands on its input or its own file, and raises only on a
    non-empty input. *)
Lemma _process_with_result_shape suffix input wrapper job_id idx :
  match _process_with' suffix input wrapper job_id idx with
  | Ok output =>
      output = input
      ∨ (truthy input = true
         ∧ output = Some (segment_file' job_id idx suffix))
  | Raise _ => truthy input = true
  end.
Proof.
  unfold AudioPipelineProcessor._process_with.
  destruct (truthy input); [|by left]. cbn [negb].
  destruct (is_available wrapper) as [[|]|e]; cbn [bind negb]; [|by left|done].
  destruct (do _ <- _ ; _) as [output|e] eqn:E; [|by left].
  destruct (is_loaded wrapper) as [[|]|e]; cbn [bind negb] in E;
    [|destruct (load wrapper) as [[]|e]; cbn [bind] in E|]; try done;
    destruct (process wrapper) as [[|]|e]; cbn [bind] in E;
    try done; injection E as <-; auto.
Qed.

(** A helper ([_process_swiftf0], [_process_svc],
    [_process_instrumental]) raises only what [is_available] raises, on
    a non-empty input; it returns its own output file when the wrapper
    is available, loads and processes with a truthy result on a
    non-empty input; in every other case (empty input, unavailable,
    error while loading or processing, falsy result) it returns its
    input. *)
Theorem process_with_outcome suffix input wrapper job_id idx :
  _process_with' suffix input wrapper job_id idx
  = if truthy input then
      match is_available wrapper with
      | Raise e => Raise e
      | Ok _ =>
          Ok (if stage_produces wrapper
              then Some (segment_file' job_id idx suffix)
              else input)
      end
    else Ok input.
Proof.
  unfold AudioPipelineProcessor._process_with, stage_produces, loads,
    answers_true.
  destruct (truthy input); [|done]. cbn [negb].
  destruct (is_available wrapper) as [[|]|e]; cbn [bind negb andb]; [|done..].
  destruct (is_loaded wrapper) as [[|]|e]; cbn [bind negb andb].
  - by destruct (process wrapper) as [[|]|e].
  - destruct (load wrapper) as [[]|e]; cbn [bind andb]; [|done].
    by destruct (process wrapper) as [[|]|e].
  - done.
Qed.

(** An enabled model stage is recorded failed, with the error text and
    the audio unchanged, exactly when [is_available()] itself raises on
    a non-empty input; in every other case it is recorded completed with
    the audio it hands on. *)
Theorem run_stage_failed_only_by_is_available config job_id idx audio stages
    stage_idx stage :
  stage ∈ model_stages →
  stage_enabled config stage = true →
  run_stage' config job_id idx (audio, stages) (stage_idx, stage)
  = match is_available (wrapper_calls env idx stage_idx) with
    | Raise e =>
        if truthy audio
        then (audio, PyDict.set stage (StageFailed (str_exc e)) stages)
        else (audio, PyDict.set stage (StageCompleted audio) stages)
    | Ok _ =>
        let output :=
          if truthy audio && stage_produces (wrapper_calls env idx stage_idx)
          then Some (segment_file' job_id idx stage) else audio in
        (output, PyDict.set stage (StageCompleted output) stages)
    end.
Proof.
  intros Hstage Hen.
  rewrite (run_stage_model_stage temp_dir env) by done.
  unfold AudioPipelineProcessor._process_with, stage_produces, loads,
    answers_true.
  destruct (truthy audio); [|by destruct (is_available _)]. cbn [negb andb].
  destruct (is_available _) as [[|]|e]; cbn [bind negb andb]; [|done..].
  destruct (is_loaded _) as [[|]|e]; cbn [bind negb andb].
  - by destruct (process _) as [[|]|e].
  - destruct (load _) as [[]|e]; cbn [bind andb]; [|done].
    by destruct (process _) as [[|]|e].
  - done.
Qed.

(** One turn of the stage loop: a disabled or unknown stage changes
    nothing; an enabled one writes one entry under its name, and hands
    on either the audio it got or, for a model stage, its own file. *)
Lemma run_stage_shape config job_id idx audio stages stage_idx stage :
  ∃ output record,
    run_stage' config job_id idx (audio, stages) (stage_idx, stage)
    = (output,
       if stage_enabled config stage
       then PyDict.set stage record stages else stages)
    ∧ (output = audio
       ∨ (stage ∈ model_stages ∧ stage_enabled config stage = true
          ∧ output = Some (segment_file' job_id idx stage)))
    ∧ (truthy audio = false → output = audio
       ∧ (record = StageCompleted audio
          ∨ record = StageSkipped "Requires multiple tracks")).
Proof.
  destruct (decide (stage ∈ model_stages)) as [Hm|Hm];
    [destruct (stage_enabled config stage) eqn:Hen|].
  - rewrite (run_stage_model_stage temp_dir env) by done.
    pose proof (_process_with_result_shape stage audio
                  (wrapper_calls env idx stage_idx) job_id idx) as Hshape.
    destruct (_process_with' _ _ _ _ _) as [output|e].
    + exists output, (StageCompleted output). split; [done|]. split.
      * destruct Hshape as [->|[_ ->]]; [by left|by right].
      * intros Ht. destruct Hshape as [->|[Ht' _]]; [auto|congruence].
    + exists audio, (StageFailed (str_exc e)). split; [done|].
      split; [by left|]. intros Ht. congruence.
  - exists audio, (StageCompleted audio). split; [|auto].
    unfold model_stages in Hm.
    repeat (apply elem_of_cons in Hm as [->|Hm]);
      [| | |by apply elem_of_nil in Hm];
      unfold stage_enabled in Hen; cbn in Hen;
      unfold AudioPipelineProcessor.run_stage; cbn; by rewrite Hen.
  - unfold model_stages in Hm.
    rewrite !not_elem_of_cons in Hm. destruct Hm as (H1 & H2 & H3 & _).
    apply String.eqb_neq in H1, H2, H3.
    unfold AudioPipelineProcessor.run_stage, stage_enabled.
    rewrite H1, H2, H3. cbn [andb].
    destruct (String.eqb stage "mixing") eqn:E4; cbn [andb].
    + apply String.eqb_eq in E4 as ->.
      destruct (mixing_enabled config); eexists audio, _;
        (split; [done|]); auto.
    + exists audio, (StageCompleted audio). auto.
Qed.

Lemma snd_enumerate {A} (l : list A) : (enumerate l).*2 = l.
Proof.
  unfold enumerate.
  assert (∀ (f : nat → nat), (imap (λ i a, (f i, a)) l).*2 = l) as H.
  { induction l as [|x l IH]; intros f; [done|].
    cbn [imap fmap list_fmap]. f_equal. apply (IH (f ∘ S)). }
  apply (H id).
Qed.

Lemma run_stages_fold config job_id idx items :
  ∀ audio stages,
    let out := foldl (run_stage' config job_id idx) (audio, stages) items in
    (out.1 = audio
     ∨ ∃ stage, stage ∈ items.*2 ∧ stage ∈ model_stages
                ∧ stage_enabled config stage = true
                ∧ out.1 = Some (segment_file' job_id idx stage))
    ∧ (∀ k, k ∈ out.2.*1
            ↔ k ∈ stages.*1
              ∨ (k ∈ items.*2 ∧ stage_enabled config k = true))
    ∧ (NoDup stages.*1 → NoDup out.2.*1)
    ∧ (truthy audio = false →
       out.1 = audio
       ∧ ∀ k record,
           PyDict.get k out.2 = Some record →
           PyDict.get k stages = Some record
           ∨ record = StageCompleted audio
           ∨ record = StageSkipped "Requires multiple tracks").
Proof.
  induction items as [|[stage_idx stage] items IH]; intros audio stages.
  - cbn. split; [by left|]. split; [|split; [done|auto]].
    intros k. split; [by left|]. intros [?|[H _]]; [done|].
    by apply elem_of_nil in H.
  - cbn [foldl].
    destruct (run_stage_shape config job_id idx audio stages stage_idx stage)
      as (output & record & -> & Hout & Hfalsy).
    specialize (IH output
                  (if stage_enabled config stage
                   then PyDict.set stage record stages else stages)).
    cbn zeta in IH |- *.
    destruct IH as (Haudio & Hkeys & Hnd & Hquiet).
    rewrite fmap_cons. cbn [snd].
    split; [|split; [|split]].
    + destruct Haudio as [->|(st & Hst & ? & ? & ->)].
      * destruct Hout as [->|(? & ? & ->)]; [by left|].
        right. exists stage. rewrite elem_of_cons. auto.
      * right. exists st. rewrite elem_of_cons. auto.
    + intros k. rewrite Hkeys, elem_of_cons.
      destruct (stage_enabled config stage) eqn:Hen.
      * rewrite dict_keys_set. split.
        -- intros [[->|?]|[? ?]]; auto.
        -- intros [?|[[->|?] ?]]; auto.
      * split.
        -- intros [?|[? ?]]; auto.
        -- intros [?|[[->|?] ?]]; auto. congruence.
    + intros Hnd0. apply Hnd.
      destruct (stage_enabled config stage); [|done].
      by apply dict_NoDup_set.
    + intros Ht. destruct (Hfalsy Ht) as [-> Hrec].
      destruct (Hquiet Ht) as [-> Hrecs]. split; [done|].
      intros k rec Hk. destruct (Hrecs k rec Hk) as [Hold|?]; [|auto].
      destruct (stage_enabled config stage); [|auto].
      destruct (decide (stage = k)) as [->|Hne].
      * rewrite dict_get_set_eq in Hold. injection Hold as <-.
        destruct Hrec; auto.
      * rewrite dict_get_set_ne in Hold by done. auto.
Qed.

(** After the stages of a segment, the current audio is the audio the
    loop started from, or the output file of a model stage that is
    enabled and named in [pipeline_stages]: no other path is ever handed
    on. *)
Theorem run_stages_audio_provenance config job_id idx original_path :
  let audio := (run_stages' config job_id idx original_path).1 in
  audio = original_path
  ∨ ∃ stage, stage ∈ pipeline_stages config ∧ stage ∈ model_stages
             ∧ stage_enabled config stage = true
             ∧ audio = Some (segment_file' job_id idx stage).
Proof.
  unfold AudioPipelineProcessor.run_stages.
  destruct (run_stages_fold config job_id idx
              (enumerate (pipeline_stages config)) original_path [])
    as (Haudio & _).
  by rewrite snd_enumerate in Haudio.
Qed.

(** [result["stages"]] holds one entry for each distinct stage name of
    [pipeline_stages] whose stage is enabled, and no other: a disabled
    stage and a name outside the registry leave no entry. *)
Theorem run_stages_entries config job_id idx original_path :
  let stages := (run_stages' config job_id idx original_path).2 in
  NoDup stages.*1
  ∧ ∀ k, k ∈ stages.*1
         ↔ k ∈ pipeline_stages config ∧ stage_enabled config k = true.
Proof.
  unfold AudioPipelineProcessor.run_stages.
  destruct (run_stages_fold config job_id idx
              (enumerate (pipeline_stages config)) original_path [])
    as (_ & Hkeys & Hnd & _).
  rewrite snd_enumerate in Hkeys. cbn zeta. split; [apply Hnd; constructor|].
  intros k. rewrite Hkeys. split; [|auto].
  intros [H|?]; [|done]. by apply elem_of_nil in H.
Qed.

(** With no audio to start from, the stages hand on nothing and,
    whatever the wrappers would answer, every entry says completed with
    no output, or skipped for mixing. *)
Theorem run_stages_without_audio config job_id idx original_path :
  truthy original_path = false →
  let out := run_stages' config job_id idx original_path in
  out.1 = original_path
  ∧ ∀ k record,
      PyDict.get k out.2 = Some record →
      record = StageCompleted original_path
      ∨ record = StageSkipped "Requires multiple tracks".
Proof.
  intros Ht. unfold AudioPipelineProcessor.run_stages.
  destruct (run_stages_fold config job_id idx
              (enumerate (pipeline_stages config)) original_path [])
    as (_ & _ & _ & Hquiet).
  destruct (Hquiet Ht) as [Haudio Hrec]. cbn zeta. split; [done|].
  intros k record Hk. by destruct (Hrec k record Hk) as [?|?].
Qed.

End stage_more.

Lemma run_stage_failed_only_by_is_available_witness :
  AudioPipelineProcessor.run_stage "audio_temp"
    (env_with_first_stage
       (mkWrapperCalls (Raise (mkException "OSError" "no device"))
          (Ok true) (Ok ()) (Ok true)))
    default_config "job-1" 0 (Some "in/seg0.wav", []) (0, "svc")
  = (Some "in/seg0.wav", [("svc", StageFailed "no device")]).
Proof.
  rewrite run_stage_failed_only_by_is_available.
  - reflexivity.
  - unfold model_stages. apply elem_of_cons. right. apply elem_of_cons.
    by left.
  - reflexivity.
Defined.

Lemma run_stages_without_audio_witness :
  (AudioPipelineProcessor.run_stages "audio_temp" calm_env default_config
     "job-1" 0 None).1 = None
  ∧ PyDict.get "mixing"
      (AudioPipelineProcessor.run_stages "audio_temp" calm_env default_config
         "job-1" 0 None).2
    = Some (StageSkipped "Requires multiple tracks").
Proof.
  destruct (run_stages_without_audio "audio_temp" calm_env default_config
              "job-1" 0 None) as [Haudio Hrec]; [reflexivity|].
  split; [exact Haudio|reflexivity].
Defined.

(** * Further properties of the pipeline *)

Section pipeline_more.
Variable temp_dir : string.
Variable env : Env.
Variable job_id : string.
Variable config : AudioProcessingConfig.

Abbreviation _process_segment' idx sd :=
  (AudioPipelineProcessor._process_segment temp_dir env job_id idx sd config).
Abbreviation process_segments' :=
  (AudioPipelineProcessor.process_segments temp_dir env job_id config).
Abbreviation usable' := (final_audio_usable temp_dir env job_id config).
Abbreviation final_file idx :=
  (AudioPipelineProcessor.segment_file temp_dir job_id idx "final").

(** What a result of [_process_segment] holds. *)
Lemma _process_segment_result idx sd r :
  _process_segment' idx sd = Ok r →
  SegmentResult.segment_idx r = idx
  ∧ SegmentResult.start_time r = sd_start_time sd
  ∧ SegmentResult.end_time r = sd_end_time sd
  ∧ SegmentResult.output_path r
    = (if usable' idx sd then Some (final_file idx) else None)
  ∧ SegmentResult.preview_path r = SegmentResult.output_path r.
Proof.
  unfold final_audio_usable, AudioPipelineProcessor._process_segment.
  destruct (AudioPipelineProcessor.run_stages _ _ _ _ _ _) as [audio stages].
  cbn [fst]. destruct (truthy audio && final_exists env idx).
  - destruct (convert_audio env idx); cbn [bind]; [|done].
    by intros [= <-].
  - by intros [= <-].
Qed.

Lemma process_segments_app total items1 items2 :
  ∀ m acc,
    process_segments' total (items1 ++ items2) m acc
    = match process_segments' total items1 m acc with
      | (m1, Ok acc1) => process_segments' total items2 m1 acc1
      | (m1, Raise e) => (m1, Raise e)
      end.
Proof.
  induction items1 as [|[idx sd] items1 IH]; intros m acc; [done|].
  cbn [app AudioPipelineProcessor.process_segments].
  destruct (_process_segment' idx sd); [|done]. apply IH.
Qed.

(** When the loop ends normally, its results are those of
    [_process_segment] on the items, in order, after what was there. *)
Lemma process_segments_ok_inv total items :
  ∀ m acc m' rs,
    process_segments' total items m acc = (m', Ok rs) →
    ∃ rs', rs = acc ++ rs'
           ∧ Forall2 (λ item r, _process_segment' item.1 item.2 = Ok r)
                     items rs'.
Proof.
  induction items as [|[idx sd] items IH]; intros m acc m' rs Hrun.
  - injection Hrun as _ <-. exists []. by rewrite app_nil_r.
  - cbn [AudioPipelineProcessor.process_segments] in Hrun.
    destruct (_process_segment' idx sd) as [r|e] eqn:Hr; [|done].
    apply IH in Hrun as (rs' & -> & Hrs).
    exists (r :: rs'). rewrite <- app_assoc. split; [done|].
    by constructor.
Qed.




End pipeline_more.

(** ** A run for a job the manager does not hold *)

Section absent_job.
Variable job_id : string.
Variable m : JobManager.t.
Hypothesis Habsent : JobManager.get_job job_id m = None.

Lemma update_job_status_absent s msg p :
  JobManager.update_job_status job_id s msg p m = m.
Proof. unfold JobManager.update_job_status. by rewrite Habsent. Qed.

Lemma update_job_progress_absent p stage msg now :
  JobManager.update_job_progress job_id p stage msg now m = m.
Proof. unfold JobManager.update_job_progress. by rewrite Habsent. Qed.

Lemma update_segment_status_absent i s pp rp now :
  JobManager.update_segment_status job_id i s pp rp now m = m.
Proof. unfold JobManager.update_segment_status. by rewrite Habsent. Qed.

Lemma complete_job_absent r now : JobManager.complete_job job_id r now m = m.
Proof. unfold JobManager.complete_job. by rewrite Habsent. Qed.

Lemma fail_job_absent e now : JobManager.fail_job job_id e now m = m.
Proof. unfold JobManager.fail_job. by rewrite Habsent. Qed.

Lemma process_segments_absent temp_dir env config total items :
  ∀ acc,
    (AudioPipelineProcessor.process_segments temp_dir env job_id config total
       items m acc).1 = m.
Proof.
  induction items as [|[idx sd] items IH]; intros acc; [done|].
  cbn [AudioPipelineProcessor.process_segments].
  rewrite update_job_progress_absent, update_segment_status_absent.
  destruct (AudioPipelineProcessor._process_segment _ _ _ _ _ _); [|done].
  rewrite update_segment_status_absent. apply IH.
Qed.

End absent_job.

Lemma process_job_absent temp_dir env job_id config segments m :
  JobManager.get_job job_id m = None →
  process_job temp_dir env job_id config segments m = m.
Proof.
  intros Habsent.
  unfold process_job. rewrite update_job_status_absent by done.
  unfold AudioPipelineProcessor.process.
  pose proof (process_segments_absent job_id m Habsent temp_dir env config
                (length segments) (enumerate segments) []) as Hloop.
  destruct (AudioPipelineProcessor.process_segments _ _ _ _ _ _ _ _)
    as [m1 [rs|e]]; cbn [fst] in Hloop; subst m1; cbn [finish_job].
  - unfold AudioPipelineProcessor.combine_and_finish.
    rewrite !(update_job_progress_absent job_id m Habsent).
    destruct (AudioPipelineProcessor._combine_segments _ _ _ _ _);
      cbn [finish_job].
    + by apply complete_job_absent.
    + by apply fail_job_absent.
  - by apply fail_job_absent.
Qed.

(** For a job id the manager does not hold, every operation that takes
    the id is a silent no-op ([cancel_job] and [delete_job] return
    [False]), and so is a whole run of [process_job]: the pipeline goes
    through its segments and the manager ends exactly as it was. *)
Theorem unknown_job_changes_nothing temp_dir env job_id config segments m :
  JobManager.get_job job_id m = None →
  process_job temp_dir env job_id config segments m = m
  ∧ (∀ s msg p, JobManager.update_job_status job_id s msg p m = m)
  ∧ (∀ p stage msg now,
       JobManager.update_job_progress job_id p stage msg now m = m)
  ∧ (∀ i s pp rp now,
       JobManager.update_segment_status job_id i s pp rp now m = m)
  ∧ (∀ r now, JobManager.complete_job job_id r now m = m)
  ∧ (∀ e now, JobManager.fail_job job_id e now m = m)
  ∧ (∀ now, JobManager.cancel_job job_id now m = (false, m))
  ∧ JobManager.delete_job job_id m = (false, m).
Proof.
  intros Habsent. split.
  - by apply process_job_absent.
  - split; [intros; by apply update_job_status_absent|].
    split; [intros; by apply update_job_progress_absent|].
    split; [intros; by apply update_segment_status_absent|].
    split; [intros; by apply complete_job_absent|].
    split; [intros; by apply fail_job_absent|].
    unfold JobManager.cancel_job, JobManager.delete_job,
      JobManager.get_job in *.
    by rewrite Habsent.
Qed.

Lemma unknown_job_changes_nothing_witness :
  process_job "audio_temp" calm_env "job-7" default_config five_segments
    one_job = one_job.
Proof.
  apply (unknown_job_changes_nothing "audio_temp" calm_env "job-7"
           default_config five_segments one_job).
  reflexivity.
Defined.

(** ** One job's run and the other jobs *)











(** ** What the loop hands to the combiner *)

Section results_facts.
Variable temp_dir : string.
Variable env : Env.
Variable job_id : string.
Variable config : AudioProcessingConfig.

Abbreviation usable'' := (final_audio_usable temp_dir env job_id config).
Abbreviation final_file'' idx :=
  (AudioPipelineProcessor.segment_file temp_dir job_id idx "final").

Lemma results_of_items absolute items rs :
  Forall2
    (λ item r,
       AudioPipelineProcessor._process_segment temp_dir env job_id item.1
         item.2 config = Ok r) items rs →
  map SegmentResult.segment_idx rs = items.*1
  ∧ concat_list absolute rs
    = map (λ item, concat_line absolute (final_file'' item.1))
          (List.filter (λ item, usable'' item.1 item.2) items).
Proof.
  induction 1 as [|[idx sd] r items rs Hr _ [IHidx IHlist]]; [done|].
  cbn [fst snd] in Hr.
  destruct (_process_segment_result temp_dir env job_id config idx sd r Hr)
    as (Hidx & _ & _ & Hout & _).
  split; [cbn; by rewrite Hidx, IHidx|].
  unfold concat_list, AudioPipelineProcessor.valid_segments in *.
  cbn [List.filter fst snd]. rewrite Hout.
  destruct (usable'' idx sd).
  - rewrite truthy_segment_file. cbn [map]. rewrite IHlist.
    by rewrite Hout.
  - cbn [truthy]. exact IHlist.
Qed.

End results_facts.

(** When the loop of [process] ends normally it has produced one result
    per segment, in index order, and the list file written for ffmpeg
    names the final files of exactly the segments that had a usable
    final audio, in index order: the segments without an output are
    left out and the others are not reordered. *)
Theorem combiner_gets_usable_segments_in_order temp_dir env job_id config
    segments absolute m m1 rs :
  AudioPipelineProcessor.process_segments temp_dir env job_id config
    (length segments) (enumerate segments) m [] = (m1, Ok rs) →
  map SegmentResult.segment_idx rs = seq 0 (length segments)
  ∧ concat_list absolute rs
    = map (λ item,
             concat_line absolute
               (AudioPipelineProcessor.segment_file temp_dir job_id item.1
                  "final"))
          (List.filter
             (λ item,
                final_audio_usable temp_dir env job_id config item.1 item.2)
             (enumerate segments)).
Proof.
  intros Hrun.
  apply process_segments_ok_inv in Hrun as (rs' & -> & Hrs).
  rewrite app_nil_l.
  destruct (results_of_items temp_dir env job_id config absolute _ _ Hrs)
    as [Hidx Hlist].
  split; [|exact Hlist]. by rewrite Hidx, fst_enumerate.
Qed.

Lemma combiner_gets_usable_segments_in_order_witness :
  let segments := take 3 five_segments in
  let out :=
    AudioPipelineProcessor.process_segments "audio_temp" second_missing_env
      "job-1" default_config 3 (enumerate segments) running_job [] in
  concat_list (λ p, "/srv/" +:+ p) (loop_results out)
  = [concat_line (λ p, "/srv/" +:+ p) "audio_temp/job-1_segment_0_final.wav";
     concat_line (λ p, "/srv/" +:+ p) "audio_temp/job-1_segment_2_final.wav"].
Proof.
  intros segments out.
  destruct out as [m1 [rs|e]] eqn:Hrun; subst out;
    [|vm_compute in Hrun; discriminate].
  destruct (combiner_gets_usable_segments_in_order "audio_temp"
              second_missing_env "job-1" default_config segments
              (λ p, "/srv/" +:+ p) running_job m1 rs Hrun) as [_ Hlist].
  unfold loop_results. cbn [snd]. rewrite Hlist. reflexivity.
Defined.

(** ** How a run ends *)

Lemma process_keeps_job temp_dir env job_id config segments m j :
  JobManager.get_job job_id m = Some j →
  ∃ j1,
    JobManager.get_job job_id
      (AudioPipelineProcessor.process temp_dir env job_id config segments m).1
    = Some j1
    ∧ ProcessingJob.results j1 = ProcessingJob.results j
    ∧ ProcessingJob.status j1 = ProcessingJob.status j.
Proof.
  intros Hj. unfold AudioPipelineProcessor.process.
  destruct (process_segments_keeps_job temp_dir env job_id config
              (length segments) (enumerate segments) m [] j Hj)
    as (j1 & Hj1 & Hs1 & Hr1).
  destruct (AudioPipelineProcessor.process_segments _ _ _ _ _ _ _ _)
    as [m1 [rs|e]]; cbn [fst] in *; [|by exists j1].
  unfold AudioPipelineProcessor.combine_and_finish.
  destruct (AudioPipelineProcessor._combine_segments _ _ _ _ _); cbn [fst];
    eexists;
    (split; [repeat (apply get_job_update_job_progress); exact Hj1|done]).
Qed.

(** What [process] returns when it returns. *)
Lemma process_ok_inv temp_dir env job_id config segments m m1 r :
  AudioPipelineProcessor.process temp_dir env job_id config segments m
  = (m1, Ok r) →
  PipelineResults.job_id r = job_id
  ∧ PipelineResults.output_path r
    = Some (AudioPipelineProcessor.temp_file temp_dir
              (job_id +:+ "_combined."
               +:+ AudioFormat_value (output_format config)))
  ∧ length (PipelineResults.segments r) = length segments.
Proof.
  intros Hrun. unfold AudioPipelineProcessor.process in Hrun.
  destruct (AudioPipelineProcessor.process_segments _ _ _ _ _ _ _ _)
    as [m0 [rs|e]] eqn:Hloop; [|done].
  unfold AudioPipelineProcessor.combine_and_finish in Hrun.
  unfold AudioPipelineProcessor._combine_segments in Hrun.
  destruct (AudioPipelineProcessor.valid_segments rs); [done|].
  destruct (concat env); cbn [bind] in Hrun; [|done].
  injection Hrun as _ <-. cbn. do 2 (split; [done|]).
  apply process_segments_ok_inv in Hloop as (rs' & -> & Hrs).
  rewrite app_nil_l.
  by rewrite <- (Forall2_length _ _ _ Hrs), length_enumerate.
Qed.

(** Whatever happens during a run, [process_job] leaves a held job in
    one of two states.  If [process] returned, the job is Completed with
    progress 100, holds the pipeline's results, whose output path is the
    combined file and which list one result per segment.  If [process]
    raised, the job is Failed, its message carries the text of the
    exception, and its results are the ones it had before. *)
Theorem process_job_outcome temp_dir env job_id config segments m j :
  JobManager.get_job job_id m = Some j →
  ∃ j',
    JobManager.get_job job_id
      (process_job temp_dir env job_id config segments m) = Some j'
    ∧ match (AudioPipelineProcessor.process temp_dir env job_id config
               segments
               (JobManager.update_job_status job_id RUNNING
                  "Starting pipeline" None m)).2 with
      | Ok r =>
          ProcessingJob.status j' = COMPLETED
          ∧ ProcessingJob.progress j' = 100%Q
          ∧ ProcessingJob.current_stage j' = "completed"
          ∧ ProcessingJob.message j' = "Job completed successfully"
          ∧ ProcessingJob.results j' = Some r
          ∧ PipelineResults.output_path r
            = Some (AudioPipelineProcessor.temp_file temp_dir
                      (job_id +:+ "_combined."
                       +:+ AudioFormat_value (output_format config)))
          ∧ length (PipelineResults.segments r) = length segments
      | Raise e =>
          ProcessingJob.status j' = FAILED
          ∧ ProcessingJob.current_stage j' = "failed"
          ∧ ProcessingJob.message j' = "Job failed: " +:+ str_exc e
          ∧ ProcessingJob.results j' = ProcessingJob.results j
      end.
Proof.
  intros Hj.
  destruct (get_job_update_job_status_job m job_id j RUNNING
              "Starting pipeline" None Hj) as (j0 & Hj0 & _ & Hres0 & _).
  set (started := JobManager.update_job_status _ _ _ _ m) in *.
  destruct (process_keeps_job temp_dir env job_id config segments started j0
              Hj0) as (j1 & Hj1 & Hres1 & _).
  unfold process_job. fold started.
  destruct (AudioPipelineProcessor.process _ _ _ _ _ started)
    as [m1 [r|e]] eqn:Hrun; cbn [fst snd finish_job] in *.
  - unfold JobManager.complete_job. rewrite Hj1.
    eexists. split; [apply get_job_stored|].
    cbn. do 5 (split; [done|]).
    by destruct (process_ok_inv _ _ _ _ _ _ _ _ Hrun) as (_ & ? & ?).
  - destruct (get_job_fail_job m1 job_id j1 (str_exc e)
                (clock env AtFailJob) Hj1)
      as (j' & Hj' & Hs & Hmsg & Hres & _).
    exists j'. split; [exact Hj'|]. split; [exact Hs|].
    split; [|split; [exact Hmsg|congruence]].
    unfold JobManager.fail_job in Hj'. rewrite Hj1 in Hj'.
    rewrite get_job_stored in Hj'. by injection Hj' as <-.
Qed.

Lemma process_job_outcome_witness :
  job_status "job-1"
    (process_job "audio_temp" third_conversion_fails_env "job-1"
       default_config five_segments one_job) = Some FAILED
  ∧ (ProcessingJob.message
       <$> JobManager.get_job "job-1"
             (process_job "audio_temp" third_conversion_fails_env "job-1"
                default_config five_segments one_job))
    = Some "Job failed: ffmpeg returned non-zero exit status 1".
Proof.
  destruct (JobManager.get_job "job-1" one_job) as [j|] eqn:Hj;
    [|vm_compute in Hj; discriminate].
  destruct (process_job_outcome "audio_temp" third_conversion_fails_env
              "job-1" default_config five_segments one_job j Hj)
    as (j' & Hj' & Hout).
  destruct (AudioPipelineProcessor.process _ _ _ _ _ _) as [m1 [r|e]] eqn:Hrun;
    [vm_compute in Hrun; discriminate|].
  cbn [snd] in Hout. destruct Hout as (Hs & _ & Hmsg & _).
  unfold job_status. rewrite Hj'. cbn. rewrite Hs, Hmsg.
  vm_compute in Hrun. by injection Hrun as _ <-.
Defined.

Lemma lookup_enumerate {A} (l : list A) i x :
  l !! i = Some x → enumerate l !! i = Some (i, x).
Proof. intros H. unfold enumerate. by rewrite list_lookup_imap, H. Qed.




(** When the processing of segment [k] raises (a conversion by ffmpeg
    that fails) after the segments before it went through, the run stops
    there: the job ends Failed with the text of the error, the segments
    before [k] are Completed, segment [k] is left Running, and the
    segments after [k] are as they were before the run. *)
Theorem process_job_fails_at_segment temp_dir env job_id config segments m j
    k sd e :
  JobManager.get_job job_id m = Some j →
  segments !! k = Some sd →
  k < length (ProcessingJob.segments j) →
  (∀ i sd', i < k → segments !! i = Some sd' →
            ∃ r, AudioPipelineProcessor._process_segment temp_dir env job_id
                   i sd' config = Ok r) →
  AudioPipelineProcessor._process_segment temp_dir env job_id k sd config
  = Raise e →
  ∃ j',
    JobManager.get_job job_id
      (process_job temp_dir env job_id config segments m) = Some j'
    ∧ ProcessingJob.status j' = FAILED
    ∧ ProcessingJob.message j' = "Job failed: " +:+ str_exc e
    ∧ (∀ i, i < k →
            AudioSegment.status <$> ProcessingJob.segments j' !! i
            = Some COMPLETED)
    ∧ AudioSegment.status <$> ProcessingJob.segments j' !! k = Some RUNNING
    ∧ (∀ i, k < i →
            ProcessingJob.segments j' !! i = ProcessingJob.segments j !! i).
Proof.
  intros Hj Hsd Hk Hbefore Hraise.
  destruct (get_job_update_job_status_job m job_id j RUNNING
              "Starting pipeline" None Hj) as (j0 & Hj0 & _ & _ & Hseg0).
  unfold process_job, AudioPipelineProcessor.process.
  set (started := JobManager.update_job_status _ _ _ _ m) in *.
  pose proof (lookup_enumerate _ _ _ Hsd) as Hitem.
  rewrite <- (take_drop_middle _ _ _ Hitem), process_segments_app.
  assert ((take k (enumerate segments)).*1 = seq 0 k) as Hfst.
  { rewrite fmap_take, fst_enumerate, take_seq. f_equal.
    apply lookup_lt_Some in Hsd. lia. }
  destruct (process_segments_returns temp_dir env job_id config
              (length segments) (take k (enumerate segments)) started []
              j0 Hj0)
    as (m1 & j1 & rs & Hrun & _ & Hj1 & _ & _ & Hlen1 & Hin & Hout).
  { apply Forall_lookup. intros i [i' sd'] Hi.
    rewrite lookup_take_Some in Hi. destruct Hi as [Hi Hlt].
    unfold enumerate in Hi. rewrite list_lookup_imap in Hi.
    destruct (segments !! i) as [sd0|] eqn:Hsd0; [|done].
    injection Hi as <- <-. by apply (Hbefore i sd0). }
  rewrite Hrun.
  destruct (process_segments_turn temp_dir env job_id config (length segments)
              k sd (drop (S k) (enumerate segments)) m1 ([] ++ rs) j1 Hj1)
    as (m_run & j_run & Hj_run & _ & _ & _ & Hseg_run & Hturn).
  rewrite Hraise in Hturn. rewrite Hturn. cbn [finish_job].
  destruct (get_job_fail_job m_run job_id j_run (str_exc e)
              (clock env AtFailJob) Hj_run)
    as (j' & Hj' & Hs & Hmsg & _ & Hsegs).
  exists j'. split; [exact Hj'|]. split; [exact Hs|]. split; [exact Hmsg|].
  rewrite Hsegs, Hseg_run, Hfst in *. split; [|split].
  - intros i Hi. rewrite list_lookup_alter_ne by lia.
    apply Hin; [apply elem_of_seq; lia|]. rewrite Hseg0. lia.
  - rewrite list_lookup_alter_eq.
    assert (k < length (ProcessingJob.segments j1)) as Hk1.
    { rewrite Hlen1, Hseg0. exact Hk. }
    destruct (lookup_lt_is_Some_2 _ _ Hk1) as [seg ->].
    cbn [fmap option_fmap option_map].
    by rewrite status_update_segment.
  - intros i Hi. rewrite list_lookup_alter_ne by lia.
    rewrite Hout, Hseg0; [done|]. rewrite elem_of_seq. lia.
Qed.

Lemma process_job_fails_at_segment_witness :
  segment_statuses "job-1"
    (process_job "audio_temp" third_conversion_fails_env "job-1"
       default_config five_segments one_job)
  = [COMPLETED; COMPLETED; RUNNING; QUEUED; QUEUED].
Proof.
  destruct (JobManager.get_job "job-1" one_job) as [j|] eqn:Hj;
    [|vm_compute in Hj; discriminate].
  assert (2 < length (ProcessingJob.segments j)) as Hk.
  { vm_compute in Hj. injection Hj as <-. cbn. lia. }
  destruct (process_job_fails_at_segment "audio_temp"
              third_conversion_fails_env "job-1" default_config five_segments
              one_job j 2 (segment_at 60 90 "in/seg2.wav")
              (mkException "CalledProcessError"
                 "ffmpeg returned non-zero exit status 1") Hj eq_refl Hk)
    as (j' & Hj' & _).
  { intros i sd' Hi Hsd'.
    destruct i as [|[|i]]; [| |lia]; injection Hsd' as <-; by eexists. }
  { reflexivity. }
  clear Hj'. reflexivity.
Defined.

(** ** The progress the loop reports *)

(** The progress reported before segment [i] of [total] lies in
    [[0, 100)], is 0 for the first segment, and grows strictly with
    [i]. *)
Theorem segment_progress_bounds total i :
  i < total →
  (0 <= AudioPipelineProcessor.segment_progress i total)%Q
  ∧ (AudioPipelineProcessor.segment_progress i total < 100)%Q
  ∧ (AudioPipelineProcessor.segment_progress 0 total == 0)%Q
  ∧ (∀ k, i < k → k < total →
          (AudioPipelineProcessor.segment_progress i total
           < AudioPipelineProcessor.segment_progress k total)%Q).
Proof.
  intros Hi. unfold AudioPipelineProcessor.segment_progress.
  assert (0 < inject_Z (Z.of_nat total))%Q as Hpos.
  { replace 0%Q with (inject_Z 0) by done. rewrite <- Zlt_Qlt. lia. }
  assert (∀ a b : nat,
            a < b →
            (inject_Z (Z.of_nat a) / inject_Z (Z.of_nat total)
             < inject_Z (Z.of_nat b) / inject_Z (Z.of_nat total))%Q) as Hlt.
  { intros a b Hab. unfold Qdiv. apply Qmult_lt_compat_r.
    - by apply Qinv_lt_0_compat.
    - rewrite <- Zlt_Qlt. lia. }
  split; [|split; [|split]].
  - apply Qmult_le_0_compat; [|done].
    apply Qle_shift_div_l; [done|]. rewrite Qmult_0_l.
    replace 0%Q with (inject_Z 0) by done. rewrite <- Zle_Qle. lia.
  - apply Qlt_le_trans with (1 * 100)%Q; [|by vm_compute].
    apply Qmult_lt_compat_r; [done|].
    apply Qlt_shift_div_r; [done|]. rewrite Qmult_1_l.
    rewrite <- Zlt_Qlt. lia.
  - unfold Qdiv. cbn [Z.of_nat]. ring.
  - intros k Hik Hk. apply Qmult_lt_compat_r; [done|]. by apply Hlt.
Qed.

Lemma segment_progress_bounds_witness :
  (0 <= AudioPipelineProcessor.segment_progress 2 3)%Q
  ∧ (AudioPipelineProcessor.segment_progress 2 3 < 100)%Q.
Proof.
  destruct (segment_progress_bounds 3 2) as (H0 & H100 & _); [lia|].
  by split.
Defined.

(** * Properties of the endpoints *)

(** [get_job_progress] answers 404 exactly for an id the manager does
    not hold; otherwise, in every state the manager's operations can
    produce, its response carries the id asked for, one of the six
    status values, a count of finished segments that does not exceed the
    total, and no preview URL. *)
Theorem get_job_progress_response m job_id :
  reachable m →
  match get_job_progress job_id m with
  | Respond r =>
      is_Some (JobManager.get_job job_id m)
      ∧ pr_job_id r = job_id
      ∧ (∃ s, pr_status r = JobStatus_value s)
      ∧ pr_segments_completed r ≤ pr_segments_total r
      ∧ pr_preview_url r = None
  | HTTPException status_code detail =>
      JobManager.get_job job_id m = None
      ∧ status_code = 404 ∧ detail = "Job not found"
  | Unhandled _ => False
  end.
Proof.
  intros Hm. unfold get_job_progress.
  destruct (JobManager.get_job job_id m) as [j|] eqn:Hj; [|done].
  pose proof (dict_Forall_get _ _ _ _ (reachable_well_shaped m Hm) Hj)
    as (Htotal & _ & _ & Hprev).
  pose proof (dict_Forall_get _ _ _ _ (reachable_counters_agree m Hm) Hj)
    as Hcount.
  cbn. split; [by eexists|]. split; [done|]. split; [by eexists|].
  split; [|done]. rewrite Hcount, Htotal. apply length_filter_le.
Qed.

Lemma get_job_progress_response_witness :
  get_job_progress "job-1" one_job
  = Respond (mkProgressResponse "job-1" "queued" 0 "initialization" 0 5
               "Job created" None)
  ∧ get_job_progress "job-7" one_job = HTTPException 404 "Job not found".
Proof.
  assert (reachable one_job) as Hm.
  { apply (reach_create_job JobManager.init). apply reach_init. }
  pose proof (get_job_progress_response one_job "job-1" Hm) as H1.
  pose proof (get_job_progress_response one_job "job-7" Hm) as H7.
  split; reflexivity.
Defined.

(** [get_job_segments] answers 404 for an unknown job and an empty list
    for a job without segments; for a job with at least one segment it
    never answers: reading the first segment with [.get] raises
    [AttributeError], since the job holds [AudioSegment] objects, not
    dictionaries. *)
Theorem get_job_segments_needs_no_segments m job_id :
  get_job_segments job_id m
  = match JobManager.get_job job_id m with
    | None => HTTPException 404 "Job not found"
    | Some j =>
        match ProcessingJob.segments j with
        | [] => Respond []
        | _ :: _ =>
            Unhandled
              (AttributeError "'AudioSegment' object has no attribute 'get'")
        end
    end.
Proof.
  unfold get_job_segments.
  destruct (JobManager.get_job job_id m) as [j|]; [|done].
  by destruct (ProcessingJob.segments j).
Qed.

(** [get_preview] never serves a file, in any state the manager's
    operations can produce: it answers 404 or 400, or lets an
    [AttributeError] or [IndexError] out.  No job ever has a preview
    URL, and a segment cannot be read with [.get]. *)
Theorem get_preview_never_serves path_exists m job_id segment_index :
  reachable m →
  match get_preview path_exists job_id segment_index m with
  | Respond _ => False
  | HTTPException status_code _ => status_code = 404 ∨ status_code = 400
  | Unhandled e => exc_type e = "AttributeError" ∨ exc_type e = "IndexError"
  end.
Proof.
  intros Hm. unfold get_preview.
  destruct (JobManager.get_job job_id m) as [j|] eqn:Hj; [|by left].
  pose proof (dict_Forall_get _ _ _ _ (reachable_well_shaped m Hm) Hj)
    as (_ & _ & _ & Hprev).
  destruct segment_index as [i|]; [|rewrite Hprev; by left].
  destruct (_ <=? i)%Z; [by right|].
  unfold py_index.
  destruct (_ && _); [|by right].
  destruct (_ !! _); [by left|by right].
Qed.

Lemma get_preview_never_serves_witness :
  get_preview (λ _, true) "job-1" (Some 0%Z) one_job
  = Unhandled (AttributeError "'AudioSegment' object has no attribute 'get'")
  ∧ get_preview (λ _, true) "job-1" (Some 5%Z) one_job
    = HTTPException 400 "Invalid segment index"
  ∧ get_preview (λ _, true) "job-1" (Some (-6)%Z) one_job
    = Unhandled (IndexError "list index out of range")
  ∧ get_preview (λ _, true) "job-1" None one_job
    = HTTPException 404 "Preview not available".
Proof.
  assert (reachable one_job) as Hm.
  { apply (reach_create_job JobManager.init). apply reach_init. }
  pose proof (get_preview_never_serves (λ _, true) one_job "job-1"
                (Some 0%Z) Hm) as H.
  repeat split; reflexivity.
Defined.

Lemma truthy_temp_file temp_dir name :
  truthy (Some (AudioPipelineProcessor.temp_file temp_dir name)) = true.
Proof. unfold AudioPipelineProcessor.temp_file, truthy. by destruct temp_dir. Qed.

(** [download_result] after a run of [process_job] on a held job: if the
    pipeline raised, the answer is 400 "Job not completed"; if it
    returned, the answer is the combined file under the name
    [result_<job_id>.wav] when that file exists, and 404 otherwise. *)
Theorem download_result_after_run path_exists temp_dir env job_id config
    segments m j :
  JobManager.get_job job_id m = Some j →
  let combined :=
    AudioPipelineProcessor.temp_file temp_dir
      (job_id +:+ "_combined." +:+ AudioFormat_value (output_format config)) in
  download_result path_exists job_id
    (process_job temp_dir env job_id config segments m)
  = match (AudioPipelineProcessor.process temp_dir env job_id config segments
             (JobManager.update_job_status job_id RUNNING "Starting pipeline"
                None m)).2 with
    | Ok _ =>
        if path_exists combined
        then Respond (mkFileResponse combined ("result_" +:+ job_id +:+ ".wav"))
        else HTTPException 404 "Output file not found"
    | Raise _ => HTTPException 400 "Job not completed"
    end.
Proof.
  intros Hj combined.
  destruct (get_job_update_job_status_job m job_id j RUNNING
              "Starting pipeline" None Hj) as (j0 & Hj0 & _).
  set (started := JobManager.update_job_status _ _ _ _ m) in *.
  destruct (process_keeps_job temp_dir env job_id config segments started j0
              Hj0) as (j1 & Hj1 & _).
  unfold process_job. fold started.
  destruct (AudioPipelineProcessor.process _ _ _ _ _ started)
    as [m1 [r|e]] eqn:Hrun; cbn [fst snd finish_job] in *.
  - destruct (process_ok_inv _ _ _ _ _ _ _ _ Hrun) as (_ & Hout & _).
    destruct (get_job_complete_job m1 job_id j1 r (clock env AtCompleteJob)
                Hj1) as (j' & Hj' & Hs & Hres & _).
    unfold download_result, results_output_path.
    rewrite Hj', Hs, Hres, Hout. cbn [JobStatus_eqb negb].
    fold combined. unfold combined at 1. rewrite truthy_temp_file.
    cbn [negb orb]. by destruct (path_exists combined).
  - destruct (get_job_fail_job m1 job_id j1 (str_exc e)
                (clock env AtFailJob) Hj1) as (j' & Hj' & Hs & _).
    unfold download_result. by rewrite Hj', Hs.
Qed.

Lemma download_result_after_run_witness :
  download_result (λ _, true) "job-1"
    (process_job "audio_temp" calm_env "job-1" default_config five_segments
       one_job)
  = Respond (mkFileResponse "audio_temp/job-1_combined.wav"
               "result_job-1.wav")
  ∧ download_result (λ _, true) "job-1"
      (process_job "audio_temp" no_files_env "job-1" default_config
         five_segments one_job)
    = HTTPException 400 "Job not completed".
Proof.
  destruct (JobManager.get_job "job-1" one_job) as [j|] eqn:Hj;
    [|vm_compute in Hj; discriminate].
  split.
  - rewrite (download_result_after_run (λ _, true) "audio_temp" calm_env
               "job-1" default_config five_segments one_job j Hj).
    reflexivity.
  - rewrite (download_result_after_run (λ _, true) "audio_temp" no_files_env
               "job-1" default_config five_segments one_job j Hj).
    reflexivity.
Defined.

(** The DELETE handler after a run of [process_job]: whatever the run
    did, and whether or not the manager holds the job, the handler
    answers 404 and the manager stays as the run left it.  A run always
    ends in COMPLETED or FAILED, which [cancel_job] refuses. *)
Theorem cancel_after_run_rejected temp_dir env job_id config segments now m :
  cancel_job_endpoint job_id now
    (process_job temp_dir env job_id config segments m)
  = (HTTPException 404 "Job not found or cannot be cancelled",
     process_job temp_dir env job_id config segments m).
Proof.
  unfold cancel_job_endpoint, JobManager.cancel_job.
  destruct (JobManager.get_job job_id m) as [j|] eqn:Hj.
  - destruct (get_job_update_job_status_job m job_id j RUNNING
                "Starting pipeline" None Hj) as (j0 & Hj0 & _).
    destruct (process_keeps_job temp_dir env job_id config segments _ j0
                Hj0) as (j1 & Hj1 & _).
    unfold process_job.
    destruct (AudioPipelineProcessor.process _ _ _ _ _ _)
      as [m1 [r|e]]; cbn [fst snd finish_job] in *.
    + destruct (get_job_complete_job m1 job_id j1 r (clock env AtCompleteJob)
                  Hj1) as (j' & -> & -> & _).
      reflexivity.
    + destruct (get_job_fail_job m1 job_id j1 (str_exc e)
                  (clock env AtFailJob) Hj1) as (j' & -> & -> & _).
      reflexivity.
  - rewrite process_job_absent by done. by rewrite Hj.
Qed.

(** * Properties of the Cover Studio segmentation *)

Lemma take_min_length {A} (l : list A) n :
  take (n `min` length l) l = take n l.
Proof.
  destruct (Nat.le_gt_cases n (length l)) as [H|H].
  - by rewrite Nat.min_l.
  - rewrite Nat.min_r by lia. rewrite !take_ge; [done|lia|lia].
Qed.

(** The slice [_create_segments] takes at the [k]-th start is the
    [k]-th window of [s] samples. *)
Lemma py_slice_window {A} (a : list A) (k s : nat) :
  py_slice a (0 + Z.of_nat k * Z.of_nat s)
    (Z.min (0 + Z.of_nat k * Z.of_nat s + Z.of_nat s) (Z.of_nat (length a)))
  = take s (drop (k * s) a).
Proof.
  unfold py_slice.
  destruct (Z.ltb_spec (0 + Z.of_nat k * Z.of_nat s) 0) as [?|_]; [lia|].
  destruct (Z.ltb_spec (Z.min (0 + Z.of_nat k * Z.of_nat s + Z.of_nat s)
                          (Z.of_nat (length a))) 0) as [?|_]; [lia|].
  destruct (Nat.le_gt_cases (k * s) (length a)) as [H|H].
  - replace (Z.to_nat (Z.min (0 + Z.of_nat k * Z.of_nat s) _))
      with (k * s) by lia.
    rewrite <- (take_min_length (drop (k * s) a) s), length_drop.
    f_equal. lia.
  - rewrite (drop_ge a (k * s)) by lia. rewrite take_nil.
    replace (Z.to_nat (_ - _)) with 0 by lia. done.
Qed.

Lemma mjoin_windows {A} (a : list A) (s c : nat) :
  mjoin ((λ k, take s (drop (k * s) a)) <$> seq 0 c) = take (c * s) a.
Proof.
  induction c as [|c IH]; [by rewrite take_0|].
  rewrite seq_S, fmap_app, join_app, IH. cbn [fmap list_fmap mjoin list_join].
  rewrite app_nil_r, take_take_drop. f_equal. lia.
Qed.

(** The number of starts [range] yields for a positive step. *)
Lemma range_count (n st : Z) :
  (0 < n)%Z → (0 < st)%Z →
  let c := ((n - 0 - 1) / st + 1)%Z in
  (0 < c)%Z ∧ ((c - 1) * st < n)%Z ∧ (n ≤ c * st)%Z
  ∧ c = ((n + st - 1) / st)%Z.
Proof.
  intros Hn Hst c. subst c.
  pose proof (Z.div_mod (n - 0 - 1) st ltac:(lia)) as Hdm.
  pose proof (Z.mod_pos_bound (n - 0 - 1) st Hst) as Hr.
  pose proof (Z.div_pos (n - 0 - 1) st ltac:(lia) Hst) as Hq.
  set (q := ((n - 0 - 1) / st)%Z) in *.
  set (r := ((n - 0 - 1) mod st)%Z) in *.
  split; [lia|]. split; [nia|]. split; [nia|].
  apply (Z.div_unique_pos _ _ _ r); [lia|nia].
Qed.

(** For a positive [segment_length * sr], [_create_segments] cuts the
    audio into consecutive windows: joined in order the segments give
    the audio back, there are ceil(total / segment_samples) of them,
    the [i]-th starts at [i * segment_samples], none is empty, every
    one but the last holds exactly [segment_samples] samples, and the
    last ends with the audio. *)
Theorem create_segments_tiles {A} (audio : list A) sr segment_length :
  (0 < segment_length * sr)%Z →
  let segment_samples := (segment_length * sr)%Z in
  let total_samples := Z.of_nat (length audio) in
  ∃ segments,
    CoverPipeline._create_segments audio sr segment_length = Ok segments
    ∧ mjoin (CoverPipeline.audio <$> segments) = audio
    ∧ Z.of_nat (length segments)
      = ((total_samples + segment_samples - 1) / segment_samples)%Z
    ∧ ∀ i seg,
        segments !! i = Some seg →
        CoverPipeline.start_sample seg = (Z.of_nat i * segment_samples)%Z
        ∧ (CoverPipeline.start_sample seg < CoverPipeline.end_sample seg
           ≤ total_samples)%Z
        ∧ Z.of_nat (length (CoverPipeline.audio seg))
          = (CoverPipeline.end_sample seg - CoverPipeline.start_sample seg)%Z
        ∧ (S i < length segments →
           CoverPipeline.end_sample seg
           = (CoverPipeline.start_sample seg + segment_samples)%Z)
        ∧ (S i = length segments →
           CoverPipeline.end_sample seg = total_samples).
Proof.
  intros Hst segment_samples total_samples.
  unfold CoverPipeline._create_segments, py_range.
  fold segment_samples total_samples.
  destruct (Z.eqb_spec segment_samples 0) as [?|_]; [lia|].
  destruct (Z.ltb_spec 0 segment_samples) as [_|?]; [|lia].
  cbn [bind]. eexists. split; [done|].
  set (s := Z.to_nat segment_samples).
  assert (segment_samples = Z.of_nat s) as Hs by lia.
  destruct (Z.ltb_spec 0 total_samples) as [Hn|Hn].
  - destruct (range_count total_samples segment_samples Hn Hst)
      as (Hc0 & Hlo & Hhi & Hceil).
    set (c := Z.to_nat ((total_samples - 0 - 1) / segment_samples + 1)).
    assert (((total_samples - 0 - 1) / segment_samples + 1)%Z = Z.of_nat c)
      as Hc by lia.
    rewrite Hc in Hc0, Hlo, Hhi, Hceil.
    split; [|split].
    + rewrite <- !list_fmap_compose.
      rewrite (list_fmap_ext _ (λ k, take s (drop (k * s) audio))).
      * rewrite mjoin_windows. apply take_ge. nia.
      * intros i k _. cbn [compose CoverPipeline.audio].
        rewrite Hs. apply py_slice_window.
    + by rewrite !length_fmap, length_seq.
    + intros i seg. rewrite !length_fmap, length_seq, !list_lookup_fmap.
      intros Hseg. apply fmap_Some in Hseg as (start & Hstart & ->).
      apply fmap_Some in Hstart as (k & Hk & ->).
      apply lookup_seq in Hk as [-> Hi]. cbn [Nat.add].
      cbn [CoverPipeline.start_sample CoverPipeline.end_sample
           CoverPipeline.audio].
      split; [lia|]. split; [nia|]. split.
      * rewrite Hs. unfold total_samples at 1.
        rewrite py_slice_window, length_take, length_drop. nia.
      * split; intros ?; nia.
  - assert (length audio = 0) as Hlen by lia.
    apply nil_length_inv in Hlen as Haudio.
    cbn [Z.to_nat seq fmap list_fmap mjoin list_join length].
    split; [done|]. split.
    + symmetry. apply Z.div_small. lia.
    + intros i seg Hseg. by destruct i.
Qed.

Lemma create_segments_tiles_witness :
  ∃ segments,
    CoverPipeline._create_segments [10; 11; 12; 13; 14; 15; 16]%Z 3 1
    = Ok segments
    ∧ mjoin (CoverPipeline.audio <$> segments)
      = [10; 11; 12; 13; 14; 15; 16]%Z
    ∧ length segments = 3.
Proof.
  destruct (create_segments_tiles [10; 11; 12; 13; 14; 15; 16]%Z 3 1)
    as (segments & Hrun & Hjoin & Hlen & _); [lia|].
  exists segments. split; [exact Hrun|]. split; [exact Hjoin|].
  apply Nat2Z.inj. rewrite Hlen. reflexivity.
Defined.

(** When [_create_segments] gives no segment: it raises [ValueError]
    exactly when [segment_length] or [sr] is zero, and returns the empty
    list exactly when their product is negative or the audio is
    empty. *)
Theorem create_segments_degenerate {A} (audio : list A) sr segment_length :
  (CoverPipeline._create_segments audio sr segment_length
   = Raise (ValueError "range() arg 3 must not be zero")
   ↔ segment_length = 0%Z ∨ sr = 0%Z)
  ∧ (CoverPipeline._create_segments audio sr segment_length = Ok []
     ↔ (segment_length * sr < 0)%Z
       ∨ ((0 < segment_length * sr)%Z ∧ audio = [])).
Proof.
  unfold CoverPipeline._create_segments, py_range.
  destruct (Z.eqb_spec (segment_length * sr) 0) as [H0|H0]; cbn [bind].
  { split; [split; [intros _; lia|done]|].
    split; [done|]. intros [?|[? _]]; lia. }
  split; [split; [done|]; intros ?; lia|].
  destruct (Z.ltb_spec 0 (segment_length * sr)) as [Hpos|Hneg].
  - destruct (Z.ltb_spec 0 (Z.of_nat (length audio))) as [Hn|Hn].
    + destruct (range_count _ _ Hn Hpos) as (Hc & _).
      destruct (Z.to_nat _) as [|c] eqn:Hcnt; [lia|].
      split; [done|]. intros [?|[_ ->]]; [lia|]. cbn in Hn. lia.
    + split; [|done]. intros _. right. split; [done|].
      apply nil_length_inv. lia.
  - destruct (Z.ltb_spec (Z.of_nat (length audio)) 0) as [?|_]; [lia|].
    split; [|done]. intros _. left. lia.
Qed.
